(** * hardbcbase: a physics-informed network for 1-D advection-diffusion

    A shallow embedding of [hardbcbase.ipynb]: the forward model with its
    hard left-boundary constraint, the residual of
    dC/dt = 0.1 (-dC/dx + d2C/dx2) obtained by differentiation, the
    time-weighted loss, the parameter initialiser and the two-phase training
    loop with its best-model tracker; then the collocation points, the
    reference solution, the evaluation on the regular grid and the error
    metrics computed from it.

    Conventions.
    - Array entries are real numbers ([R]).  An N x 1 column and a 1-D array are
      a [list R]; a 2-D array is the list of its rows.  The literal [0.1] is
      the real 1/10.
    - A call that raises (a shape mismatch) yields [None].  [jnp.mean] of an
      array with no entries is NaN, which is no real number: it yields [None]
      as well.
    - A 2-D array with no rows does not record its width in this
      representation, so it is read as 0 x 0, and width checks on a batch with
      no rows succeed vacuously.
    - [jax.grad] is read as the gradient: partial derivatives, entry by entry.
    - The training loop works on what the compiled kernels return, IEEE
      values ([spec_float]), so that [float('inf')], NaN and [<] are the
      ones Python has.
    - Reading entries as real numbers leaves out rounding and overflow.
      Where a property depends on them, the same lines are given on
      binary32 entries as well: the hard-constraint formula
      ([u_constrained_f32]) and the closing lines of [loss_fun]
      ([lambda_t_f32], [loss_f32]).
    - The samplers of [jax.random] and [scipy.special.erfc] are variables
      of the sections that use them; what a property needs of them is a
      hypothesis of that property. *)

From Stdlib Require Import Reals Lra Lia ZArith ClassicalEpsilon SpecFloat.
From stdpp Require Import base option list.

Open Scope R_scope.

(** ** Arrays *)

Abbreviation col := (list R).
Abbreviation mat := (list (list R)).

Definition Rsum (l : list R) : R := foldr Rplus 0 l.

(** [jnp.sum] of a 2-D array: all entries. *)
Definition sum_all (M : mat) : R := Rsum (concat M).

(** [jnp.mean]: NaN on an array without entries. *)
Definition mean (l : list R) : option R :=
  match l with
  | [] => None
  | _ => Some (Rsum l / INR (length l))
  end.

(** [jnp.concatenate([x, y], axis=1)] of two columns: the row counts must agree. *)
Definition concatenate1 (x y : col) : option mat :=
  if decide (length x = length y) then Some (zip_with (fun a b => [a; b]) x y)
  else None.

Definition ncols (M : mat) : nat :=
  match M with
  | [] => 0%nat
  | r :: _ => length r
  end.

Definition column (M : mat) (j : nat) : list R := (fun r => nth j r 0) <$> M.

(** One row of [X @ W]: the inner dimensions must agree. *)
Definition vecmat (v : list R) (W : mat) : option (list R) :=
  if decide (length v = length W)
  then Some ((fun j => Rsum (zip_with Rmult v (column W j))) <$> seq 0 (ncols W))
  else None.

Definition matmul (X W : mat) : option mat := mapM (fun r => vecmat r W) X.

(** NumPy broadcasting of a binary operation along the last axis. *)
Definition broadcast (op : R -> R -> R) (r b : list R) : option (list R) :=
  if decide (length r = length b) then Some (zip_with op r b)
  else if decide (length r = 1%nat) then Some (op (hd 0 r) <$> b)
  else if decide (length b = 1%nat) then Some ((fun a => op a (hd 0 b)) <$> r)
  else None.

(** An N x m array combined with an N x 1 column, row by row. *)
Definition bcast_col (op : R -> R -> R) (M : mat) (c : col) : mat :=
  zip_with (fun row ci => (fun b => op b ci) <$> row) M c.

(** ** Parameter store *)

Record Layer := mkLayer { W : mat; B : list R }.

(** ** Forward model *)

(** [X @ layer['W'] + layer['B']] *)
Definition affine (X : mat) (layer : Layer) : option mat :=
  XW ← matmul X (W layer);
  mapM (fun r => broadcast Rplus r (B layer)) XW.

(** The body of [neural_net] after the concatenation: [*hidden, last = params],
    tanh layers over [hidden], then the affine [last]. *)
Fixpoint neural_net_layers (params : list Layer) (X : mat) : option mat :=
  match params with
  | [] => None
  | [last] => affine X last
  | layer :: rest =>
      Z ← affine X layer;
      neural_net_layers rest ((fun r : list R => tanh <$> r) <$> Z)
  end.

Definition neural_net (params : list Layer) (x y : col) : option mat :=
  X ← concatenate1 x y;
  neural_net_layers params X.

Definition neural_net_with_hard_constraint
    (params : list Layer) (x t : col) : option mat :=
  base_nn_output ← neural_net params x t;
  let u_constrained :=
    bcast_col Rplus (bcast_col Rmult base_nn_output x) ((fun a => 1 - a) <$> x) in
  Some u_constrained.

(** ** Differential operator *)

(** The derivative of [f] at [x]: the limit of the difference quotient where
    there is one, and 0 elsewhere. *)
Definition deriv (f : R -> R) (x : R) : R :=
  match excluded_middle_informative (exists l, derivable_pt_lim f x l) with
  | left H => proj1_sig (constructive_indefinite_description _ H)
  | right _ => 0
  end.

(** [jax.grad(F, 0)(x, t)] and [jax.grad(F, 1)(x, t)] for a scalar [F] of two
    columns: tracing [F] at [(x, t)] raises where [F] does; the result has the
    shape of the argument differentiated, entry [i] being the partial
    derivative with respect to that argument's entry [i]. *)
Definition grad0 (F : col -> col -> option R) (x t : col) : option col :=
  _ ← F x t;
  Some (imap (fun i xi => deriv (fun h => default 0 (F (<[i:=h]> x) t)) xi) x).

Definition grad1 (F : col -> col -> option R) (x t : col) : option col :=
  _ ← F x t;
  Some (imap (fun i ti => deriv (fun h => default 0 (F x (<[i:=h]> t))) ti) t).

(** The three closures of [pde_residual_2d_darcy]. *)
Definition u_x (u : col -> col -> option mat) : col -> col -> option col :=
  fun x t => grad0 (fun x t => sum_all <$> u x t) x t.

Definition u_xx (u : col -> col -> option mat) : col -> col -> option col :=
  fun x t => grad0 (fun x t => Rsum <$> u_x u x t) x t.

Definition u_t (u : col -> col -> option mat) : col -> col -> option col :=
  fun x t => grad1 (fun x t => sum_all <$> u x t) x t.

(** ** Domain and initial-condition points *)

Definition xmin : R := 0.
Definition xmax : R := 1.
Definition tmin : R := 0.
Definition tmax : R := 1.

(** [t0 = jnp.stack([xb, jnp.ones(N_b)*tmin], 1)], for the sampled [xb]. *)
Definition t0 (xb : list R) : list (R * R) :=
  zip_with pair xb ((fun one => one * tmin) <$> replicate (length xb) 1).

(** ** Residual assembler *)

Definition pde_residual_2d_darcy (xb : list R)
    (x t : col) (u : col -> col -> option mat) : option (col * col) :=
  ic1 ← (fun U => (fun v => v - 0) <$> concat U) <$> u (t0 xb).*1 (t0 xb).*2;
  ut ← u_t u x t;
  ux ← u_x u x t;
  uxx ← u_xx u x t;
  Some (zip_with Rminus ut
          (Rmult (1/10) <$> zip_with Rplus (Ropp <$> ux) uxx),
        ic1).

(** ** Loss assembler *)

(** A comparison of arrays yields booleans, which multiply as 0 and 1. *)
Definition mask_le (a b : R) : R := if Rle_dec a b then 1 else 0.
Definition mask_gt (a b : R) : R := if Rlt_dec b a then 1 else 0.

(** The two weighting formulas of [lambda_t] and their masked sum. *)
Definition lambda_early (t : R) : R := 200 * (1 - (t - tmin) / (1/10)) ^ 2 + 1.
Definition lambda_late (t : R) : R := 20 * (1 - (t - tmin) / (tmax - tmin)) ^ 2 + 1.

Definition lambda_t (t : R) : R :=
  lambda_early t * mask_le t (1/10) + lambda_late t * mask_gt t (1/10).

Definition loss_fun (xb : list R)
    (params : list Layer) (colloc : list (R * R)) : option R :=
  let x_c := colloc.*1 in
  let t_c := colloc.*2 in
  let lambda := lambda_t <$> t_c in
  let u_nn := fun x t => neural_net_with_hard_constraint params x t in
  '(pde_residual, ic1) ← pde_residual_2d_darcy xb x_c t_c u_nn;
  pde_loss ← mean (zip_with Rmult lambda ((fun r => r ^ 2) <$> pde_residual));
  ic_mean ← mean ((fun r => r ^ 2) <$> ic1);
  let ic_loss := 100 * ic_mean in
  Some (pde_loss + ic_loss).

(** The weighting schedule as the specification words it: one formula on each
    side of the breakpoint. *)
Definition lambda_spec (t_min t_max t : R) : R :=
  if Rle_dec t (1/10) then 200 * (1 - t / (1/10)) ^ 2 + 1
  else 20 * (1 - (t - t_min) / (t_max - t_min)) ^ 2 + 1.

(** ** Parameter initialisation *)

Section Init.
Context {Key : Type}.
(** [jax.random]: key creation, key splitting, and uniform draws of a 2-D
    and of a 1-D shape. *)
Variable PRNGKey : nat -> Key.
Variable split : Key -> nat -> list Key.
Variable uniform2 : Key -> nat -> nat -> mat.
Variable uniform1 : Key -> nat -> list R.

(** The body of the loop of [init_params]. *)
Definition init_layer (key : Key) (n_in n_out : nat) : Layer :=
  let lb := - (1 / sqrt (INR n_in)) in
  let ub := 1 / sqrt (INR n_in) in
  let W := (fun row : list R => (fun r => lb + (ub - lb) * r) <$> row)
             <$> uniform2 key n_in n_out in
  let B := uniform1 key n_out in
  mkLayer W B.

(** [len(layers) - 1] is negative for an empty list, and [split] raises. *)
Definition init_params (layers : list nat) : option (list Layer) :=
  match layers with
  | [] => None
  | _ =>
      let keys := split (PRNGKey 0) (length layers - 1) in
      Some (zip_with (fun key '(n_in, n_out) => init_layer key n_in n_out)
              keys (zip (removelast layers) (tail layers)))
  end.
End Init.

(** ** Optimizer driver and training loop *)

Definition float_inf : spec_float := S754_infinity false.

Section Training.
Context {Params OptState Grads Updates Point Generator : Type}.

(** What the script takes from JAX, optax, jaxopt and NumPy:
    [loss_fun] as compiled and run in floating point, the gradient half of
    [jax.value_and_grad(loss_fun)], [optimizer.update],
    [optax.apply_updates], [LBFGS(...).run(...).params], and
    [np.random.choice(a, size=...)] on NumPy's global generator. *)
Variable loss_fun_jit : Params -> list Point -> spec_float.
Variable grad_loss_fun : Params -> list Point -> Grads.
Variable optimizer_update : Grads -> OptState -> Updates * OptState.
Variable apply_updates : Params -> Updates -> Params.
Variable lbfgs_run : Params -> list Point -> Params.
Variable choice : Generator -> nat -> nat -> list nat * Generator.

Variable colloc : list Point.
Variables epochs epochs_lbfgs batch_size : nat.

Definition update (opt_state : OptState) (params : Params)
    (colloc_batched : list Point) : OptState * Params * spec_float :=
  let value := loss_fun_jit params colloc_batched in
  let grads := grad_loss_fun params colloc_batched in
  let '(updates, opt_state) := optimizer_update grads opt_state in
  let params := apply_updates params updates in
  (opt_state, params, value).

Definition update_lbfgs (params : Params) (colloc_batched : list Point) : Params :=
  lbfgs_run params colloc_batched.

(** [colloc[idx]]: JAX clamps an index into the array. *)
Definition take_rows (idx : list nat) : list Point :=
  omap (fun i => colloc !! (i `min` pred (length colloc))) idx.

Record TrainState := mkTrainState {
  opt_state : OptState;
  params : Params;
  best_params : Params;
  best_loss : spec_float;
  best_epoch : nat;
  all_losses : list spec_float;
  all_epochs : list nat;
  np_random : Generator
}.

(** The tracking variables before the first epoch. *)
Definition init_state (opt_state0 : OptState) (params0 : Params)
    (g : Generator) : TrainState :=
  mkTrainState opt_state0 params0 params0 float_inf 0 [] [] g.

(** One pass through the body of the Adam loop. *)
Definition adam_epoch (st : TrainState) (epoch : nat) : TrainState :=
  let '(idx, g) := choice (np_random st) (length colloc) batch_size in
  let colloc_batched := take_rows idx in
  let '(opt_state, params, current_loss) :=
    update (opt_state st) (params st) colloc_batched in
  let all_losses := all_losses st ++ [current_loss] in
  let all_epochs := all_epochs st ++ [epoch] in
  if SFltb current_loss (best_loss st)
  then mkTrainState opt_state params params current_loss epoch
         all_losses all_epochs g
  else mkTrainState opt_state params (best_params st) (best_loss st)
         (best_epoch st) all_losses all_epochs g.

(** One pass through the body of the L-BFGS loop. *)
Definition lbfgs_epoch (st : TrainState) (epoch : nat) : TrainState :=
  let '(idx, g) := choice (np_random st) (length colloc) batch_size in
  let colloc_batched := take_rows idx in
  let params := update_lbfgs (params st) colloc_batched in
  let current_loss := loss_fun_jit params colloc_batched in
  let all_losses := all_losses st ++ [current_loss] in
  let all_epochs := all_epochs st ++ [(epoch + epochs)%nat] in
  if SFltb current_loss (best_loss st)
  then mkTrainState (opt_state st) params params current_loss
         (epoch + epochs)%nat all_losses all_epochs g
  else mkTrainState (opt_state st) params (best_params st) (best_loss st)
         (best_epoch st) all_losses all_epochs g.

(** [for epoch in range(epochs+1)] and [for epoch in range(epochs_lbfgs+1)]. *)
Definition adam_phase (st : TrainState) : TrainState :=
  foldl adam_epoch st (seq 0 (epochs + 1)).

Definition lbfgs_phase (st : TrainState) : TrainState :=
  foldl lbfgs_epoch st (seq 0 (epochs_lbfgs + 1)).

Definition train (st : TrainState) : TrainState :=
  lbfgs_phase (adam_phase st).

(** The states after each epoch, in order, through both loops. *)
Fixpoint states_from (step : TrainState -> nat -> TrainState)
    (st : TrainState) (es : list nat) : list TrainState :=
  match es with
  | [] => []
  | e :: es => let st' := step st e in st' :: states_from step st' es
  end.

Definition train_states (st : TrainState) : list TrainState :=
  states_from adam_epoch st (seq 0 (epochs + 1))
  ++ states_from lbfgs_epoch (adam_phase st) (seq 0 (epochs_lbfgs + 1)).

(** What one epoch does to the records and to the snapshot: one loss and
    one epoch index are appended, and the snapshot is overwritten with the
    current loss, parameters and epoch index when that loss is below the
    stored one, and kept otherwise. *)
Definition tracker_step (st st' : TrainState) (epoch : nat) : Prop :=
  exists current_loss,
    all_losses st' = all_losses st ++ [current_loss] /\
    all_epochs st' = all_epochs st ++ [epoch] /\
    if SFltb current_loss (best_loss st)
    then best_loss st' = current_loss /\ best_params st' = params st' /\
         best_epoch st' = epoch
    else best_loss st' = best_loss st /\ best_params st' = best_params st /\
         best_epoch st' = best_epoch st.

(** A step that keeps the stored loss or replaces it by a smaller one. *)
Definition descends (step : TrainState -> nat -> TrainState) : Prop :=
  forall st e, exists e', tracker_step st (step st e) e'.

End Training.

Arguments TrainState : clear implicits.

(** ** The forward model at one coordinate

    [neural_net] never mixes the rows of its batch.  These are the same
    computations on a single row [x; t], used to state what the batch
    functions return at each position. *)

Definition affine_row (r : list R) (layer : Layer) : option (list R) :=
  z ← vecmat r (W layer);
  broadcast Rplus z (B layer).

Fixpoint net_row (params : list Layer) (r : list R) : option (list R) :=
  match params with
  | [] => None
  | [last] => affine_row r last
  | layer :: rest =>
      z ← affine_row r layer;
      net_row rest (tanh <$> z)
  end.

(** The constrained output row at [(x, t)]. *)
Definition u_row (params : list Layer) (x t : R) : option (list R) :=
  (fun row : list R => (fun b => b * x + (1 - x)) <$> row) <$> net_row params [x; t].

(** The scalar output at [(x, t)]: the sum of that row, which is its only
    entry when the last layer has one output; 0 where the model raises. *)
Definition u_point (params : list Layer) (x t : R) : R :=
  default 0 (Rsum <$> u_row params x t).

(** ** The hard constraint on binary32 entries *)

(** The hard-constraint formula on one entry, in binary32 as the arrays
    hold it: [base_nn_output * x + (1.0 - x)]. *)
Definition f32_one : spec_float := S754_finite false 8388608 (-23).

Definition u_constrained_f32 (base_nn_output x : spec_float) : spec_float :=
  SFadd 24 128 (SFmul 24 128 base_nn_output x) (SFsub 24 128 f32_one x).

(** ** Partial derivatives and residual at one coordinate *)

(** The partial derivatives of the scalar output at one coordinate. *)
Definition u_point_x (params : list Layer) (x t : R) : R :=
  deriv (fun h => u_point params h t) x.

Definition u_point_xx (params : list Layer) (x t : R) : R :=
  deriv (fun h => u_point_x params h t) x.

Definition u_point_t (params : list Layer) (x t : R) : R :=
  deriv (fun h => u_point params x h) t.

(** The residual of the Forward Model, position by position. *)
Definition residual_point (params : list Layer) (x t : R) : R :=
  u_point_t params x t - 1/10 * (- u_point_x params x t + u_point_xx params x t).

(** ** Differentiability *)

Definition differentiable (f : R -> R) : Prop :=
  forall x, exists l, derivable_pt_lim f x l.

Definition twice_differentiable (f : R -> R) : Prop :=
  differentiable f /\ differentiable (deriv f).

(** A row whose entries are functions of one real variable. *)
Definition eval (fs : list (R -> R)) (h : R) : list R := (fun f => f h) <$> fs.

(** A computation on such a row either raises whatever the variable is, or
    returns a row of twice differentiable entries. *)
Definition smooth_row (F : R -> option (list R)) : Prop :=
  (forall h, F h = None) \/
  exists gs, Forall twice_differentiable gs /\ forall h, F h = Some (eval gs h).

(** ** Ranges of the initial parameters *)

(** The Xavier interval of a layer with [n_in] inputs. *)
Definition within_xavier (n_in : nat) (v : R) : Prop :=
  - (1 / sqrt (INR n_in)) <= v <= 1 / sqrt (INR n_in).

Definition in_unit_interval (v : R) : Prop := 0 <= v < 1.

(** ** The order of IEEE values *)

Definition not_nan (f : spec_float) : Prop := f <> S754_nan.

(** A key that orders the values other than NaN as [SFcompare] does:
    -inf, the negative finite values, the zeros, the positive finite values,
    +inf. *)
Definition float_key (f : spec_float) : Z * Z * Z :=
  match f with
  | S754_nan => (0, 0, 0)%Z
  | S754_infinity true => (-2, 0, 0)%Z
  | S754_infinity false => (2, 0, 0)%Z
  | S754_zero _ => (0, 0, 0)%Z
  | S754_finite true m e => (-1, - e, - Z.pos m)%Z
  | S754_finite false m e => (1, e, Z.pos m)%Z
  end.

Definition key_le (a b : Z * Z * Z) : Prop :=
  (a.1.1 < b.1.1 \/
   (a.1.1 = b.1.1 /\ (a.1.2 < b.1.2 \/ (a.1.2 = b.1.2 /\ a.2 <= b.2))))%Z.

Definition key_lt (a b : Z * Z * Z) : Prop :=
  (a.1.1 < b.1.1 \/
   (a.1.1 = b.1.1 /\ (a.1.2 < b.1.2 \/ (a.1.2 = b.1.2 /\ a.2 < b.2))))%Z.

(** ** Concrete inputs *)

(** A 2-2-1 network and a batch of two coordinates, the first on the left
    boundary. *)
Definition demo_params : list Layer :=
  [mkLayer [[1; 0]; [0; 1]] [0; 0]; mkLayer [[2]; [3]] [5]].

Definition demo_output : mat :=
  [[(tanh (0 * 1 + (7 * 0 + 0) + 0) * 2 +
       (tanh (0 * 0 + (7 * 1 + 0) + 0) * 3 + 0) + 5) * 0 + (1 - 0)];
   [(tanh (1 * 1 + (7 * 0 + 0) + 0) * 2 +
       (tanh (1 * 0 + (7 * 1 + 0) + 0) * 3 + 0) + 5) * 1 + (1 - 1)]].

(** A batch of two coordinates, one initial-time point, and the loss of the
    2-2-1 network on them. *)
Definition demo_ic1 : list R :=
  [(tanh (3 * 1 + (tmin * 0 + 0) + 0) * 2 +
      (tanh (3 * 0 + (tmin * 1 + 0) + 0) * 3 + 0) + 5) * 3 + (1 - 3) - 0].

Definition demo_loss : R :=
  Rsum (zip_with Rmult (lambda_t <$> [7; 7])
          ((fun r => r ^ 2) <$> zip_with (residual_point demo_params) [0; 1] [7; 7]))
    / INR 2
  + 100 * (Rsum ((fun r => r ^ 2) <$> demo_ic1) / INR 1).

(** A sampler that returns 3/4 everywhere, and the network shape [4, 1]. *)
Definition const_uniform2 (key n m : nat) : mat := replicate n (replicate m (3/4)).

Definition const_uniform1 (key n : nat) : list R := replicate n (3/4).

Definition const_split (key n : nat) : list nat := replicate n key.

Definition const_layer : Layer :=
  let lb := - (1 / sqrt (INR 4)) in
  let ub := 1 / sqrt (INR 4) in
  mkLayer (replicate 4 [lb + (ub - lb) * (3/4)]) [3/4].

(** A small run: three collocation points, a generator that walks through
    them, a loss that is the first point of the batch read as a binary32
    number, and optimizers that count their steps.  The live loss goes
    3, 1, 2, 3, ... *)
Definition toy_float (n : nat) : spec_float :=
  binary_normalize 24 128 (Z.of_nat n) 0 false.

Definition toy_colloc : list nat := [3; 1; 2]%nat.

Definition toy_loss (p : nat) (batch : list nat) : spec_float :=
  match batch with
  | [] => S754_nan
  | pt :: _ => toy_float pt
  end.

Definition toy_choice (g a size : nat) : list nat * nat :=
  (replicate size (g mod a)%nat, S g).

Definition toy_train (epochs epochs_lbfgs : nat) (g : nat) : TrainState nat unit nat :=
  train toy_loss (fun _ _ => tt) (fun _ s => (tt, s)) (fun p _ => S p)
    (fun p _ => S p) toy_choice toy_colloc epochs epochs_lbfgs 1
    (init_state tt 0%nat g).

Definition toy_states (epochs epochs_lbfgs : nat) (g : nat)
    : list (TrainState nat unit nat) :=
  train_states toy_loss (fun _ _ => tt) (fun _ s => (tt, s)) (fun p _ => S p)
    (fun p _ => S p) toy_choice toy_colloc epochs epochs_lbfgs 1
    (init_state tt 0%nat g).

(** After the first epoch the stored loss is 3; after the third it is 1, the
    live loss having gone 3, 1, 2. *)
Definition toy_state_0 : TrainState nat unit nat :=
  mkTrainState tt 1%nat 1%nat (toy_float 3) 0 [toy_float 3] [0%nat] 1%nat.

Definition toy_state_2 : TrainState nat unit nat :=
  mkTrainState tt 3%nat 2%nat (toy_float 1) 1
    [toy_float 3; toy_float 1; toy_float 2] [0; 1; 1]%nat 3%nat.

(** The reference configuration. *)
Definition epochs_reference : nat := Z.to_nat 20000.

Definition epochs_lbfgs_reference : nat := Z.to_nat 250.

(** ** Collocation points *)

Definition N_r : nat := 2000.
Definition N_ic_extra : nat := 200.

(** [jnp.stack([x, t], axis=1)] of two 1-D arrays: the lengths must agree. *)
Definition stack1 (x t : list R) : option (list (R * R)) :=
  if decide (length x = length t) then Some (zip x t) else None.

Section Collocation.
Context {Key : Type}.

(** [random.uniform(key, shape=(n,), minval=a, maxval=b)] and
    [random.beta(key, a=a, b=b, shape=(n,))]. *)
Variable uniform : Key -> nat -> R -> R -> list R.
Variable beta : Key -> R -> R -> nat -> list R.

(** The array [colloc] the training loop draws its batches from. *)
Definition collocation_points (key1 key2 key3 key4 key7 : Key)
    : option (list (R * R)) :=
  let n_uniform := (N_r / 2)%nat in
  let x_uniform := uniform key1 n_uniform xmin xmax in
  let t_uniform := uniform key2 n_uniform tmin tmax in
  let n_biased := (N_r - n_uniform)%nat in
  let x_dense_region := (fun v => v * xmax) <$> beta key3 1 9 n_biased in
  let t_dense_region := (fun v => v * tmax) <$> beta key4 1 9 n_biased in
  let x := x_uniform ++ x_dense_region in
  let t := t_uniform ++ t_dense_region in
  colloc ← stack1 x t;
  let x_ic_extra := uniform key7 N_ic_extra xmin xmax in
  let t_ic_extra := replicate N_ic_extra 0 in
  ic_extra_colloc ← stack1 x_ic_extra t_ic_extra;
  Some (colloc ++ ic_extra_colloc).

End Collocation.

(** ** Reference solution *)

(** [math.sqrt]: raises on a negative argument. *)
Definition math_sqrt (a : R) : option R :=
  if Rlt_dec a 0 then None else Some (sqrt a).

Definition math_e : R := exp 1.

Section Reference.

(** [scipy.special.erfc]. *)
Variable erfc : R -> R.

Definition analytical_sol (x t : R) : option R :=
  if Req_dec_T t 0 then Some 0
  else
    s1 ← math_sqrt (1/10 * t);
    let c1 := erfc ((x - 1/10 * t) / (2 * s1)) in
    s2 ← math_sqrt (1/10 * t);
    let c2 := Rpower math_e x * erfc ((x + 1/10 * t) / (2 * s2)) in
    Some (1/2 * (c1 + c2)).

End Reference.

(** ** Evaluation on the regular grid *)

(** [jnp.linspace(start, stop, num)]. *)
Definition linspace (start stop : R) (num : nat) : list R :=
  (fun i => start + INR i * ((stop - start) / INR (num - 1))) <$> seq 0 num.

Definition x_vis : list R := linspace xmin xmax 100.
Definition t_vis : list R := linspace tmin tmax 100.

(** [jnp.meshgrid(x_vis, t_vis)]: both arrays have one row per entry of
    [t_vis] and one column per entry of [x_vis]. *)
Definition meshgrid (xs ts : list R) : mat * mat :=
  ((fun _ => xs) <$> ts, (fun t => (fun _ => t) <$> xs) <$> ts).

(** [M.flatten().reshape(-1, 1)]: the entries row after row, as a column. *)
Definition flatten_col (M : mat) : col := concat M.

Definition u_trained (best_params : list Layer) (x t : col) : option mat :=
  neural_net_with_hard_constraint best_params x t.

(** [a[i:i+1]] and [U[0][0]]. *)
Definition slice1 (a : col) (i : nat) : col := take 1 (drop i a).

Definition item00 (U : mat) : option R := row ← U !! 0%nat; row !! 0%nat.

Section Evaluation.
Variable erfc : R -> R.

(** The loop over the flattened grid: the three lists [C_pred], [C_act]
    and [C_error]. *)
Definition evaluation (best_params : list Layer) (xs ts : list R)
    : option (list R * list R * list R) :=
  let '(X, T) := meshgrid xs ts in
  let X_flat := flatten_col X in
  let T_flat := flatten_col T in
  rows ← mapM (fun i =>
            pred ← u_trained best_params (slice1 X_flat i) (slice1 T_flat i)
                     ≫= item00;
            x ← X_flat !! i;
            t ← T_flat !! i;
            act ← analytical_sol erfc x t;
            Some (pred, act, Rabs (act - pred)))
          (seq 0 (length X_flat));
  Some (rows.*1.*1, rows.*1.*2, rows.*2).

End Evaluation.

(** The coordinates of the flattened grid in the order of the loop, and
    the body of the loop at one of them. *)
Definition grid_points (xs ts : list R) : list (R * R) :=
  concat ((fun t => (fun x => (x, t)) <$> xs) <$> ts).

Definition evaluation_point (erfc : R -> R) (best_params : list Layer)
    (p : R * R) : option (R * R * R) :=
  pred ← u_trained best_params [p.1] [p.2] ≫= item00;
  act ← analytical_sol erfc p.1 p.2;
  Some (pred, act, Rabs (act - pred)).

(** ** Error metrics *)

(** [np.max]: raises on an array without entries. *)
Definition np_max (l : list R) : option R :=
  match l with
  | [] => None
  | a :: l => Some (foldl Rmax a l)
  end.

Definition mse (C_pred C_act : list R) : option R :=
  mean ((fun d => d ^ 2) <$> zip_with Rminus C_pred C_act).

Definition rmse (C_pred C_act : list R) : option R :=
  sqrt <$> mse C_pred C_act.

Definition max_error (C_pred C_act : list R) : option R :=
  np_max (Rabs <$> zip_with Rminus C_pred C_act).

(** [a.reshape((nrows, ncols))] of a 1-D array: the sizes must agree. *)
Fixpoint chunks (nrows ncols : nat) (a : list R) : mat :=
  match nrows with
  | O => []
  | S n => take ncols a :: chunks n ncols (drop ncols a)
  end.

Definition reshape (nrows ncols : nat) (a : list R) : option mat :=
  if decide (length a = (nrows * ncols)%nat) then Some (chunks nrows ncols a)
  else None.

(** ** Error metrics by region *)

(** The regions as pairs (x_range, t_range). *)
Definition full_domain : (R * R) * (R * R) := ((0, 1), (0, 1)).
Definition early_region : (R * R) * (R * R) := ((0, 1/10), (0, 1/10)).
Definition left_boundary : (R * R) * (R * R) := ((0, 5/100), (0, 1)).
Definition right_boundary : (R * R) * (R * R) := ((95/100, 1), (0, 1)).

Definition regions : list ((R * R) * (R * R)) :=
  [full_domain; early_region; left_boundary; right_boundary].

Definition Rgeb (a b : R) : bool := if Rge_dec a b then true else false.
Definition Rleb (a b : R) : bool := if Rle_dec a b then true else false.

(** [(X >= x_min) & (X <= x_max) & (T >= t_min) & (T <= t_max)], entry by
    entry in the order of the flattened grid. *)
Definition region_mask (region : (R * R) * (R * R)) (xs ts : list R) : list bool :=
  let '((x_min, x_max), (t_min, t_max)) := region in
  let '(X, T) := meshgrid xs ts in
  zip_with (fun x t => Rgeb x x_min && Rleb x x_max && Rgeb t t_min && Rleb t t_max)
    (flatten_col X) (flatten_col T).

(** [a[mask]]: the entries where the mask holds, in order; the mask must
    have the shape of the array. *)
Definition select (mask : list bool) (a : list R) : option (list R) :=
  if decide (length mask = length a)
  then Some (omap (fun p : bool * R => if p.1 then Some p.2 else None) (zip mask a))
  else None.

(** The metrics of one region, from the errors on the grid. *)
Definition region_metric (region : (R * R) * (R * R)) (xs ts : list R)
    (C_error : list R) : option (R * R * R) :=
  let mask := region_mask region xs ts in
  region_error ← select mask C_error;
  mse ← mean ((fun e => e ^ 2) <$> region_error);
  let rmse := sqrt mse in
  max_error ← np_max region_error;
  Some (mse, rmse, max_error).

(** ** Concrete samplers

    Every uniform draw is its lower bound, every beta draw is 1/2; and
    a stand-in for the complementary error function, with the reflection
    [erfc (-z) = 2 - erfc z]. *)
Definition low_uniform (key n : nat) (a b : R) : list R := replicate n a.

Definition half_beta (key : nat) (a b : R) (n : nat) : list R := replicate n (1/2).

Definition odd_erfc (z : R) : R := 1 - z.

(** ** The loss on binary32 entries *)


















(** * Properties *)

(** ** Lists and sums *)

Lemma mapM_cons {A B : Type} (f : A -> option B) (a : A) (l : list A) :
  mapM f (a :: l) = y ← f a; k ← mapM f l; Some (y :: k).
Proof. reflexivity. Qed.

Lemma mapM_bind {A B C : Type} (f : A -> option B) (g : B -> option C) (l : list A) :
  mapM f l ≫= mapM g = mapM (fun a => f a ≫= g) l.
Proof.
  induction l as [|a l IH]; [done|].
  rewrite !mapM_cons, <- IH.
  destruct (f a) as [b|]; [|done].
  destruct (mapM f l) as [k|]; [done|]. simpl. by destruct (g b).
Qed.

Lemma mapM_fmap_l {A B C : Type} (f : B -> option C) (g : A -> B) (l : list A) :
  mapM f (g <$> l) = mapM (fun a => f (g a)) l.
Proof.
  induction l as [|a l IH]; [done|].
  rewrite fmap_cons, !mapM_cons, IH. done.
Qed.

Lemma mapM_lookup {A B : Type} (f : A -> option B) (l : list A) (k : list B)
    (i : nat) (a : A) :
  mapM f l = Some k -> l !! i = Some a -> exists b, k !! i = Some b /\ f a = Some b.
Proof.
  intros Hm Hl. apply mapM_Some_1 in Hm.
  destruct (Forall2_lookup_l _ _ _ _ _ Hm Hl) as (b & Hb & Hf). eauto.
Qed.

(** ** Forward model: rows are independent *)

Lemma affine_rows (X : mat) (layer : Layer) :
  affine X layer = mapM (fun r => affine_row r layer) X.
Proof. unfold affine, matmul. apply mapM_bind. Qed.

Lemma neural_net_layers_rows (params : list Layer) (X : mat) :
  params <> [] -> neural_net_layers params X = mapM (net_row params) X.
Proof.
  revert X. induction params as [|layer rest IH]; intros X Hne; [done|].
  destruct rest as [|layer' rest'].
  - simpl. apply affine_rows.
  - change (neural_net_layers (layer :: layer' :: rest') X)
      with (affine X layer ≫= fun Z =>
              neural_net_layers (layer' :: rest') ((fun r : list R => tanh <$> r) <$> Z)).
    rewrite affine_rows.
    transitivity (mapM (fun r => affine_row r layer) X
                    ≫= mapM (fun z => net_row (layer' :: rest') (tanh <$> z))).
    + destruct (mapM _ X) as [Z|]; [|done].
      cbv beta iota delta [mbind option_bind].
      rewrite IH by done. apply mapM_fmap_l.
    + rewrite mapM_bind. done.
Qed.

Lemma neural_net_None_nil (x y : col) : neural_net [] x y = None.
Proof. unfold neural_net. by destruct (concatenate1 x y). Qed.

Lemma mapM_zip_with_post {A B C : Type} (g : A -> option B) (h : B -> A -> C)
    (P : list A) :
  mapM g P ≫= (fun M => Some (zip_with h M P))
  = mapM (fun p => (fun r => h r p) <$> g p) P.
Proof.
  induction P as [|p P IH]; [done|].
  rewrite !mapM_cons, <- IH.
  destruct (g p) as [r|]; [|done].
  destruct (mapM g P) as [M|]; done.
Qed.

Lemma bcast_col_fused (M : mat) (x : col) :
  bcast_col Rplus (bcast_col Rmult M x) ((fun a => 1 - a) <$> x)
  = zip_with (fun (row : list R) xi => (fun b => b * xi + (1 - xi)) <$> row) M x.
Proof.
  unfold bcast_col. revert x. induction M as [|row M IH]; intros [|a x]; [done..|].
  simpl. rewrite IH. f_equal.
  rewrite <- list_fmap_compose. by apply list_fmap_ext.
Qed.

Lemma hard_constraint_rows (params : list Layer) (x t : col) :
  params <> [] -> length x = length t ->
  neural_net_with_hard_constraint params x t
  = mapM (fun p => u_row params p.1 p.2) (zip x t).
Proof.
  intros Hne Hlen. unfold neural_net_with_hard_constraint, neural_net, concatenate1.
  rewrite decide_True by done.
  cbv beta iota zeta delta [mbind option_bind].
  rewrite neural_net_layers_rows by done.
  rewrite zip_with_zip, mapM_fmap_l.
  transitivity (mapM (fun p : R * R => net_row params [p.1; p.2]) (zip x t)
     ≫= fun M => Some (zip_with
          (fun (row : list R) (p : R * R) => (fun b => b * p.1 + (1 - p.1)) <$> row)
          M (zip x t))).
  - erewrite (mapM_ext _ (fun p : R * R => net_row params [p.1; p.2]));
      [|by intros []].
    destruct (mapM _ (zip x t)) as [M|]; [|done].
    simpl. f_equal. rewrite bcast_col_fused.
    rewrite <- (fst_zip x t) at 1 by lia.
    by rewrite zip_with_fmap_r.
  - rewrite mapM_zip_with_post. done.
Qed.

Lemma hard_constraint_Some (params : list Layer) (x t : col) (U : mat) :
  neural_net_with_hard_constraint params x t = Some U ->
  params <> [] /\ length x = length t.
Proof.
  intros H. split.
  - intros ->. unfold neural_net_with_hard_constraint in H.
    by rewrite neural_net_None_nil in H.
  - unfold neural_net_with_hard_constraint, neural_net, concatenate1 in H.
    destruct (decide (length x = length t)); [done|]. done.
Qed.

(** What the constrained model returns at each position of the batch. *)
Lemma hard_constraint_lookup (params : list Layer) (x t : col) (U : mat)
    (i : nat) (xi ti : R) :
  neural_net_with_hard_constraint params x t = Some U ->
  x !! i = Some xi -> t !! i = Some ti ->
  exists row, U !! i = Some row /\ u_row params xi ti = Some row.
Proof.
  intros HU Hx Ht. destruct (hard_constraint_Some _ _ _ _ HU) as [Hne Hlen].
  rewrite hard_constraint_rows in HU by done.
  eapply (mapM_lookup _ _ _ i (xi, ti)) in HU; [done|].
  by apply lookup_zip_Some.
Qed.

(** C1: whatever the ParameterSet, at every position of the batch where
    x = 0 every entry of the constrained output is exactly 1, for every t. *)
Theorem hard_constraint_left_boundary (params : list Layer) (x t : col) (U : mat)
    (i : nat) (row : list R) (v : R) :
  neural_net_with_hard_constraint params x t = Some U ->
  x !! i = Some 0 -> U !! i = Some row -> v ∈ row -> v = 1.
Proof.
  intros HU Hx Hrow Hv.
  destruct (hard_constraint_Some _ _ _ _ HU) as [_ Hlen].
  destruct (lookup_lt_is_Some_2 t i) as [ti Ht].
  { rewrite <- Hlen. eapply lookup_lt_Some, Hx. }
  destruct (hard_constraint_lookup _ _ _ _ _ _ _ HU Hx Ht) as (row' & Hrow' & Hu).
  simplify_eq. unfold u_row in Hu.
  destruct (net_row params [0; ti]) as [base|]; simplify_eq/=.
  apply list_elem_of_fmap in Hv as (b & -> & _). lra.
Qed.

Lemma demo_forward :
  neural_net_with_hard_constraint demo_params [0; 1] [7; 7] = Some demo_output.
Proof. reflexivity. Qed.

Lemma hard_constraint_left_boundary_witness :
  neural_net_with_hard_constraint demo_params [0; 1] [7; 7] = Some demo_output /\
  [0; 1] !! 0%nat = Some 0 /\
  demo_output !! 0%nat
  = Some [(tanh (0 * 1 + (7 * 0 + 0) + 0) * 2 +
             (tanh (0 * 0 + (7 * 1 + 0) + 0) * 3 + 0) + 5) * 0 + (1 - 0)] /\
  (tanh (0 * 1 + (7 * 0 + 0) + 0) * 2 +
     (tanh (0 * 0 + (7 * 1 + 0) + 0) * 3 + 0) + 5) * 0 + (1 - 0) = 1.
Proof.
  split; [reflexivity|]. split; [reflexivity|]. split; [reflexivity|].
  eapply (hard_constraint_left_boundary demo_params [0; 1] [7; 7] demo_output 0);
    [reflexivity|reflexivity|reflexivity|].
  apply list_elem_of_singleton. reflexivity.
Defined.

(** In binary32 the constrained output at x = 0 (either zero) is exactly 1.0
    for every finite network output, and NaN when the network output is
    infinite or NaN. *)
Lemma u_constrained_f32_left_boundary (base : spec_float) (s : bool) :
  u_constrained_f32 base (S754_zero s)
  = match base with
    | S754_infinity _ | S754_nan => S754_nan
    | _ => f32_one
    end.
Proof. destruct base as [[]|[]| |[] m e], s; reflexivity. Qed.

(** ** Derivatives *)

Lemma deriv_unique (f : R -> R) (x l : R) :
  derivable_pt_lim f x l -> deriv f x = l.
Proof.
  intros Hl. unfold deriv.
  destruct (excluded_middle_informative _) as [H|H].
  - destruct (constructive_indefinite_description _ H) as [l' Hl']. simpl.
    eapply uniqueness_limite; eassumption.
  - destruct H. eauto.
Qed.

Lemma deriv_correct (f : R -> R) (x : R) :
  (exists l, derivable_pt_lim f x l) -> derivable_pt_lim f x (deriv f x).
Proof. intros [l Hl]. by rewrite (deriv_unique _ _ _ Hl). Qed.

Lemma deriv_iff (f g : R -> R) (x : R) :
  (forall l, derivable_pt_lim f x l <-> derivable_pt_lim g x l) ->
  deriv f x = deriv g x.
Proof.
  intros Hfg. unfold deriv at 1.
  destruct (excluded_middle_informative _) as [H|H].
  - destruct (constructive_indefinite_description _ H) as [l Hl]. simpl.
    symmetry. apply deriv_unique. by apply Hfg.
  - unfold deriv. destruct (excluded_middle_informative _) as [[l Hl]|H']; [|done].
    destruct H. exists l. by apply Hfg.
Qed.

Lemma deriv_ext (f g : R -> R) (x : R) :
  (forall h, f h = g h) -> deriv f x = deriv g x.
Proof.
  intros Hfg. apply deriv_iff. intros l.
  split; apply derivable_pt_lim_ext; auto.
Qed.

(** Adding a constant changes no difference quotient. *)
Lemma deriv_plus_const (f : R -> R) (c x : R) :
  deriv (fun h => f h + c) x = deriv f x.
Proof.
  apply deriv_iff. intros l. unfold derivable_pt_lim.
  split; intros H eps Heps; destruct (H eps Heps) as [delta Hd];
    exists delta; intros h Hh0 Hh; specialize (Hd h Hh0 Hh);
    [replace (f (x + h) - f x) with (f (x + h) + c - (f x + c)) by ring
    |replace (f (x + h) + c - (f x + c)) with (f (x + h) - f x) by ring]; done.
Qed.

(** ** Sums over a batch *)

Lemma Rsum_app (l k : list R) : Rsum (l ++ k) = Rsum l + Rsum k.
Proof. induction l as [|a l IH]; simpl; [lra|]. rewrite IH. lra. Qed.

Lemma sum_all_rows (M : mat) : sum_all M = Rsum (Rsum <$> M).
Proof.
  unfold sum_all. induction M as [|r M IH]; simpl; [done|].
  by rewrite Rsum_app, IH.
Qed.

(** Replacing entry [i] of the first column moves the sum of a pointwise
    function by the change of its term [i]. *)
Lemma Rsum_zip_with_insert (g : R -> R -> R) (x t : col) (i : nat) (xi ti h : R) :
  x !! i = Some xi -> t !! i = Some ti ->
  Rsum (zip_with g (<[i:=h]> x) t)
  = g h ti + (Rsum (zip_with g x t) - g xi ti).
Proof.
  revert t i. induction x as [|a x IH]; intros [|b t] [|i] Hx Ht; simplify_eq/=.
  - lra.
  - rewrite (IH _ _ Hx Ht). lra.
Qed.

Lemma Rsum_zip_with_insert_r (g : R -> R -> R) (x t : col) (i : nat) (xi ti h : R) :
  x !! i = Some xi -> t !! i = Some ti ->
  Rsum (zip_with g x (<[i:=h]> t))
  = g xi h + (Rsum (zip_with g x t) - g xi ti).
Proof.
  revert t i. induction x as [|a x IH]; intros [|b t] [|i] Hx Ht; simplify_eq/=.
  - lra.
  - rewrite (IH _ _ Hx Ht). lra.
Qed.

(** ** Sum, then differentiate *)

(** For a scalar [F] that is, on batches of the length of this one, the sum of
    a pointwise function [g], the gradient collects the partial derivatives
    of [g], position by position. *)
Lemma grad0_pointwise (F : col -> col -> option R) (g : R -> R -> R) (x t : col) :
  length x = length t ->
  (forall x', length x' = length x -> F x' t = Some (Rsum (zip_with g x' t))) ->
  grad0 F x t = Some (zip_with (fun xi ti => deriv (fun h => g h ti) xi) x t).
Proof.
  intros Hlen HF. unfold grad0. rewrite (HF x) by done. simpl. f_equal.
  apply list_eq. intros i. rewrite list_lookup_imap, lookup_zip_with.
  destruct (x !! i) as [xi|] eqn:Hx; simpl; [|done].
  destruct (lookup_lt_is_Some_2 t i) as [ti Ht].
  { rewrite <- Hlen. eapply lookup_lt_Some, Hx. }
  rewrite Ht. simpl. f_equal.
  rewrite <- (deriv_plus_const (fun h => g h ti) (Rsum (zip_with g x t) - g xi ti)).
  apply deriv_ext. intros h.
  rewrite HF by (by rewrite length_insert). simpl.
  by apply Rsum_zip_with_insert.
Qed.

Lemma grad1_pointwise (F : col -> col -> option R) (g : R -> R -> R) (x t : col) :
  length x = length t ->
  (forall t', length t' = length t -> F x t' = Some (Rsum (zip_with g x t'))) ->
  grad1 F x t = Some (zip_with (fun xi ti => deriv (fun h => g xi h) ti) x t).
Proof.
  intros Hlen HF. unfold grad1. rewrite (HF t) by done. simpl. f_equal.
  apply list_eq. intros i. rewrite list_lookup_imap, lookup_zip_with.
  destruct (t !! i) as [ti|] eqn:Ht; simpl.
  2:{ destruct (x !! i); done. }
  destruct (lookup_lt_is_Some_2 x i) as [xi Hx].
  { rewrite Hlen. eapply lookup_lt_Some, Ht. }
  rewrite Hx. simpl. f_equal.
  rewrite <- (deriv_plus_const (fun h => g xi h) (Rsum (zip_with g x t) - g xi ti)).
  apply deriv_ext. intros h.
  rewrite HF by (by rewrite length_insert). simpl.
  by apply Rsum_zip_with_insert_r.
Qed.

(** ** Shapes do not depend on values *)

Lemma vecmat_shape (r r' : list R) (M : mat) (o : list R) :
  length r = length r' -> vecmat r M = Some o ->
  exists o', vecmat r' M = Some o' /\ length o' = length o.
Proof.
  unfold vecmat. intros Hlen Ho.
  destruct (decide (length r = length M)) as [Hr|]; simplify_eq.
  rewrite decide_True by congruence. eexists; split; [done|].
  by rewrite !length_fmap.
Qed.

Lemma broadcast_shape (op : R -> R -> R) (z z' b o : list R) :
  length z = length z' -> broadcast op z b = Some o ->
  exists o', broadcast op z' b = Some o' /\ length o' = length o.
Proof.
  unfold broadcast. intros Hlen Ho. rewrite <- Hlen.
  repeat case_decide; simplify_eq; eexists; split; try done;
    rewrite ?length_fmap, ?length_zip_with; lia.
Qed.

Lemma affine_row_shape (r r' : list R) (layer : Layer) (o : list R) :
  length r = length r' -> affine_row r layer = Some o ->
  exists o', affine_row r' layer = Some o' /\ length o' = length o.
Proof.
  unfold affine_row. intros Hlen Ho.
  destruct (vecmat r (W layer)) as [z|] eqn:Hz; simplify_eq/=.
  destruct (vecmat_shape _ _ _ _ Hlen Hz) as (z' & -> & Hz'). simpl.
  eapply broadcast_shape; [|done]. done.
Qed.

Lemma net_row_shape (params : list Layer) (r r' o : list R) :
  length r = length r' -> net_row params r = Some o ->
  exists o', net_row params r' = Some o' /\ length o' = length o.
Proof.
  revert r r' o. induction params as [|layer rest IH]; intros r r' o Hlen Ho; [done|].
  destruct rest as [|layer' rest'].
  - simpl in *. by eapply affine_row_shape.
  - change (net_row (layer :: layer' :: rest') r)
      with (affine_row r layer ≫= fun z => net_row (layer' :: rest') (tanh <$> z)) in Ho.
    change (net_row (layer :: layer' :: rest') r')
      with (affine_row r' layer ≫= fun z => net_row (layer' :: rest') (tanh <$> z)).
    destruct (affine_row r layer) as [z|] eqn:Hz; [|done].
    destruct (affine_row_shape _ _ _ _ Hlen Hz) as (z' & -> & Hz').
    cbv beta iota delta [mbind option_bind] in Ho |- *.
    eapply IH; [|done]. by rewrite !length_fmap.
Qed.

Lemma u_row_shape (params : list Layer) (x t x' t' : R) :
  is_Some (u_row params x t) -> is_Some (u_row params x' t').
Proof.
  unfold u_row. intros [o Ho].
  destruct (net_row params [x; t]) as [b|] eqn:Hb; [|done].
  destruct (net_row_shape params [x; t] [x'; t'] b) as (b' & -> & _); done.
Qed.

(** ** The batch output as a sum over positions *)

Lemma u_point_row (params : list Layer) (x t : R) :
  u_point params x t = Rsum (default [] (u_row params x t)).
Proof. unfold u_point. by destruct (u_row params x t). Qed.

Lemma mapM_total {A B : Type} (f : A -> option B) (d : B) (l : list A) :
  Forall (fun a => is_Some (f a)) l ->
  mapM f l = Some ((fun a => default d (f a)) <$> l).
Proof.
  intros Hl. apply mapM_Some_2. apply Forall2_fmap_r, Forall_Forall2_diag.
  eapply Forall_impl; [done|]. intros a [b Hb]. simpl. by rewrite Hb.
Qed.

Lemma hard_constraint_sum (params : list Layer) (x t : col) (U : mat) (x' t' : col) :
  neural_net_with_hard_constraint params x t = Some U ->
  length x' = length x -> length t' = length x ->
  sum_all <$> neural_net_with_hard_constraint params x' t'
  = Some (Rsum (zip_with (u_point params) x' t')).
Proof.
  intros HU Hx' Ht'. destruct (hard_constraint_Some _ _ _ _ HU) as [Hne Hlen].
  rewrite hard_constraint_rows by (done || congruence).
  rewrite (mapM_total _ []).
  - simpl. f_equal.
    rewrite sum_all_rows, <- list_fmap_compose, (zip_with_zip (u_point params)).
    f_equal. apply list_fmap_ext. intros _ [a b] _. simpl. by rewrite u_point_row.
  - apply Forall_forall. intros [a b] Hab.
    apply list_elem_of_lookup in Hab as [i Hi].
    apply lookup_zip_Some in Hi as [Ha Hb].
    destruct (lookup_lt_is_Some_2 x i) as [xi Hxi].
    { rewrite <- Hx'. eapply lookup_lt_Some, Ha. }
    destruct (lookup_lt_is_Some_2 t i) as [ti Hti].
    { rewrite <- Hlen, <- Hx'. eapply lookup_lt_Some, Ha. }
    destruct (hard_constraint_lookup _ _ _ _ _ _ _ HU Hxi Hti) as (row & _ & Hrow).
    simpl. eapply u_row_shape. by rewrite Hrow.
Qed.

Lemma u_x_pointwise (params : list Layer) (x t : col) (U : mat) :
  neural_net_with_hard_constraint params x t = Some U ->
  u_x (neural_net_with_hard_constraint params) x t
  = Some (zip_with (u_point_x params) x t).
Proof.
  intros HU. destruct (hard_constraint_Some _ _ _ _ HU) as [_ Hlen].
  unfold u_x. apply (grad0_pointwise _ (u_point params)); [done|].
  intros x' Hx'. eapply hard_constraint_sum; [done..|congruence].
Qed.

Lemma u_t_pointwise (params : list Layer) (x t : col) (U : mat) :
  neural_net_with_hard_constraint params x t = Some U ->
  u_t (neural_net_with_hard_constraint params) x t
  = Some (zip_with (u_point_t params) x t).
Proof.
  intros HU. destruct (hard_constraint_Some _ _ _ _ HU) as [_ Hlen].
  unfold u_t. apply (grad1_pointwise _ (u_point params)); [done|].
  intros t' Ht'. eapply hard_constraint_sum; [done..|congruence].
Qed.

Lemma hard_constraint_same_shape (params : list Layer) (x t : col) (U : mat) (x' t' : col) :
  neural_net_with_hard_constraint params x t = Some U ->
  length x' = length x -> length t' = length x ->
  is_Some (neural_net_with_hard_constraint params x' t').
Proof.
  intros HU Hx' Ht'. pose proof (hard_constraint_sum _ _ _ _ _ _ HU Hx' Ht') as H.
  destruct (neural_net_with_hard_constraint params x' t'); [done|]. done.
Qed.

Lemma u_xx_pointwise (params : list Layer) (x t : col) (U : mat) :
  neural_net_with_hard_constraint params x t = Some U ->
  u_xx (neural_net_with_hard_constraint params) x t
  = Some (zip_with (u_point_xx params) x t).
Proof.
  intros HU. destruct (hard_constraint_Some _ _ _ _ HU) as [_ Hlen].
  unfold u_xx. apply (grad0_pointwise _ (u_point_x params)); [done|].
  intros x' Hx'.
  destruct (hard_constraint_same_shape _ _ _ _ x' t HU) as [U' HU']; [done..|].
  by rewrite (u_x_pointwise _ _ _ _ HU').
Qed.

(** ** The forward model is twice differentiable *)

Lemma differentiable_deriv (f : R -> R) (x : R) :
  differentiable f -> derivable_pt_lim f x (deriv f x).
Proof. intros Hf. apply deriv_correct, Hf. Qed.

Lemma differentiable_ext (f g : R -> R) :
  (forall h, f h = g h) -> differentiable f -> differentiable g.
Proof.
  intros Hfg Hf x. destruct (Hf x) as [l Hl]. exists l.
  by apply (derivable_pt_lim_ext f g).
Qed.

Lemma differentiable_const (c : R) : differentiable (fun _ => c).
Proof. intros x. exists 0. apply (derivable_pt_lim_const c). Qed.

Lemma differentiable_id : differentiable (fun h => h).
Proof. intros x. exists 1. apply derivable_pt_lim_id. Qed.

Lemma differentiable_plus (f g : R -> R) :
  differentiable f -> differentiable g -> differentiable (fun h => f h + g h).
Proof.
  intros Hf Hg x. destruct (Hf x) as [l1 H1], (Hg x) as [l2 H2].
  exists (l1 + l2). exact (derivable_pt_lim_plus f g x l1 l2 H1 H2).
Qed.

Lemma differentiable_mult (f g : R -> R) :
  differentiable f -> differentiable g -> differentiable (fun h => f h * g h).
Proof.
  intros Hf Hg x. destruct (Hf x) as [l1 H1], (Hg x) as [l2 H2].
  exists (l1 * g x + f x * l2). exact (derivable_pt_lim_mult f g x l1 l2 H1 H2).
Qed.

Lemma cosh_pos (y : R) : 0 < cosh y.
Proof.
  unfold cosh. pose proof (exp_pos y). pose proof (exp_pos (- y)). lra.
Qed.

Lemma derivable_pt_lim_tanh (y : R) :
  derivable_pt_lim tanh y (1 - tanh y * tanh y).
Proof.
  pose proof (cosh_pos y) as Hc.
  replace (1 - tanh y * tanh y)
    with ((cosh y * cosh y - sinh y * sinh y) / Rsqr (cosh y)).
  - apply (derivable_pt_lim_div sinh cosh y (cosh y) (sinh y)).
    + apply derivable_pt_lim_sinh.
    + apply derivable_pt_lim_cosh.
    + lra.
  - unfold tanh, Rsqr. field. lra.
Qed.

Lemma derivable_pt_lim_tanh_comp (f : R -> R) (x l : R) :
  derivable_pt_lim f x l ->
  derivable_pt_lim (fun h => tanh (f h)) x ((1 - tanh (f x) * tanh (f x)) * l).
Proof.
  intros Hl.
  apply (derivable_pt_lim_comp f tanh x l _ Hl), derivable_pt_lim_tanh.
Qed.

Lemma differentiable_tanh (f : R -> R) :
  differentiable f -> differentiable (fun h => tanh (f h)).
Proof.
  intros Hf x. destruct (Hf x) as [l Hl]. eexists.
  by apply derivable_pt_lim_tanh_comp.
Qed.

Lemma twice_differentiable_ext (f g : R -> R) :
  (forall h, f h = g h) -> twice_differentiable f -> twice_differentiable g.
Proof.
  intros Hfg [Hf Hf']. split; [by eapply differentiable_ext|].
  eapply differentiable_ext; [|exact Hf']. intros h. by apply deriv_ext.
Qed.

Lemma twice_differentiable_const (c : R) : twice_differentiable (fun _ => c).
Proof.
  split; [apply differentiable_const|].
  eapply differentiable_ext; [|apply (differentiable_const 0)].
  intros h. symmetry. apply deriv_unique, (derivable_pt_lim_const c).
Qed.

Lemma twice_differentiable_id : twice_differentiable (fun h => h).
Proof.
  split; [apply differentiable_id|].
  eapply differentiable_ext; [|apply (differentiable_const 1)].
  intros h. symmetry. apply deriv_unique, derivable_pt_lim_id.
Qed.

Lemma twice_differentiable_plus (f g : R -> R) :
  twice_differentiable f -> twice_differentiable g ->
  twice_differentiable (fun h => f h + g h).
Proof.
  intros [Hf Hf'] [Hg Hg']. split; [by apply differentiable_plus|].
  eapply differentiable_ext; [|apply (differentiable_plus _ _ Hf' Hg')].
  intros h. symmetry. apply deriv_unique.
  apply (derivable_pt_lim_plus f g); by apply differentiable_deriv.
Qed.

Lemma twice_differentiable_mult (f g : R -> R) :
  twice_differentiable f -> twice_differentiable g ->
  twice_differentiable (fun h => f h * g h).
Proof.
  intros [Hf Hf'] [Hg Hg']. split; [by apply differentiable_mult|].
  eapply differentiable_ext;
    [|apply (differentiable_plus _ _ (differentiable_mult _ _ Hf' Hg)
                                     (differentiable_mult _ _ Hf Hg'))].
  intros h. symmetry. apply deriv_unique.
  apply (derivable_pt_lim_mult f g); by apply differentiable_deriv.
Qed.

Lemma twice_differentiable_tanh (f : R -> R) :
  twice_differentiable f -> twice_differentiable (fun h => tanh (f h)).
Proof.
  intros [Hf Hf']. split; [by apply differentiable_tanh|].
  pose proof (differentiable_tanh f Hf) as Ht.
  eapply differentiable_ext;
    [|apply (differentiable_mult
               (fun h => 1 + (-1) * (tanh (f h) * tanh (f h))) (deriv f))].
  - intros h. symmetry. apply deriv_unique.
    replace (1 + -1 * (tanh (f h) * tanh (f h))) with (1 - tanh (f h) * tanh (f h)) by ring.
    by apply derivable_pt_lim_tanh_comp, differentiable_deriv.
  - apply differentiable_plus; [apply differentiable_const|].
    apply differentiable_mult; [apply differentiable_const|].
    by apply differentiable_mult.
  - done.
Qed.

Lemma length_eval (fs : list (R -> R)) (h : R) : length (eval fs h) = length fs.
Proof. apply length_fmap. Qed.

Lemma Rsum_twice_differentiable (fs : list (R -> R)) :
  Forall twice_differentiable fs ->
  twice_differentiable (fun h => Rsum (eval fs h)).
Proof.
  induction 1 as [|f fs Hf _ IH]; simpl.
  - apply twice_differentiable_const.
  - by apply (twice_differentiable_plus f).
Qed.

Lemma dot_twice_differentiable (fs : list (R -> R)) (c : list R) :
  Forall twice_differentiable fs ->
  twice_differentiable (fun h => Rsum (zip_with Rmult (eval fs h) c)).
Proof.
  intros Hfs. revert c. induction Hfs as [|f fs Hf _ IH]; intros [|c0 c]; simpl;
    try apply twice_differentiable_const.
  apply (twice_differentiable_plus (fun h => f h * c0)); [|apply IH].
  apply twice_differentiable_mult; [done|apply twice_differentiable_const].
Qed.

Lemma vecmat_smooth (fs : list (R -> R)) (M : mat) :
  Forall twice_differentiable fs ->
  smooth_row (fun h => vecmat (eval fs h) M).
Proof.
  intros Hfs. unfold vecmat.
  destruct (decide (length fs = length M)) as [Hlen|Hlen].
  - right.
    exists ((fun j h => Rsum (zip_with Rmult (eval fs h) (column M j))) <$> seq 0 (ncols M)).
    split.
    + apply Forall_fmap, Forall_forall. intros j _. by apply dot_twice_differentiable.
    + intros h. rewrite decide_True by (by rewrite length_eval).
      unfold eval. by rewrite <- !list_fmap_compose.
  - left. intros h. by rewrite decide_False by (by rewrite length_eval).
Qed.

Lemma broadcast_smooth (fs : list (R -> R)) (b : list R) :
  Forall twice_differentiable fs ->
  smooth_row (fun h => broadcast Rplus (eval fs h) b).
Proof.
  intros Hfs. unfold broadcast.
  destruct (decide (length fs = length b)) as [H1|H1];
    [|destruct (decide (length fs = 1%nat)) as [H2|H2];
      [|destruct (decide (length b = 1%nat)) as [H3|H3]]].
  - right. exists (zip_with (fun f bj h => f h + bj) fs b). split.
    + clear H1. revert b. induction Hfs as [|f fs Hf _ IH]; intros [|b0 b]; simpl;
        try constructor; [|apply IH].
      apply twice_differentiable_plus; [done|apply twice_differentiable_const].
    + intros h. rewrite decide_True by (by rewrite length_eval).
      f_equal. clear. revert b. induction fs as [|f fs IH]; intros [|b0 b]; simpl; [done..|].
      f_equal. apply IH.
  - right. destruct fs as [|f [|??]]; simplify_eq/=.
    exists ((fun bj h => f h + bj) <$> b). split.
    + apply Forall_fmap, Forall_forall. intros bj _. simpl.
      apply twice_differentiable_plus; [|apply twice_differentiable_const].
      by inversion Hfs.
    + intros h. simpl. rewrite decide_False by done.
      unfold eval. by rewrite <- !list_fmap_compose.
  - right. exists ((fun f h => f h + hd 0 b) <$> fs). split.
    + apply Forall_fmap. eapply Forall_impl; [done|]. intros f Hf. simpl.
      apply twice_differentiable_plus; [done|apply twice_differentiable_const].
    + intros h. rewrite !length_eval.
      rewrite (decide_False _ _ H1), (decide_False _ _ H2).
      unfold eval. by rewrite <- !list_fmap_compose.
  - left. intros h. rewrite !length_eval.
    by rewrite (decide_False _ _ H1), (decide_False _ _ H2).
Qed.

Lemma affine_row_smooth (fs : list (R -> R)) (layer : Layer) :
  Forall twice_differentiable fs ->
  smooth_row (fun h => affine_row (eval fs h) layer).
Proof.
  intros Hfs. unfold affine_row.
  destruct (vecmat_smooth fs (W layer) Hfs) as [Hn|(gs & Hgs & Hs)].
  - left. intros h. by rewrite Hn.
  - destruct (broadcast_smooth gs (B layer) Hgs) as [Hn|(ks & Hks & Hk)].
    + left. intros h. rewrite Hs. simpl. apply Hn.
    + right. exists ks. split; [done|]. intros h. rewrite Hs. simpl. apply Hk.
Qed.

Lemma net_row_cons (layer layer' : Layer) (rest : list Layer) (r : list R) :
  net_row (layer :: layer' :: rest) r
  = affine_row r layer ≫= fun z => net_row (layer' :: rest) (tanh <$> z).
Proof. reflexivity. Qed.

Lemma net_row_smooth (params : list Layer) (fs : list (R -> R)) :
  Forall twice_differentiable fs ->
  smooth_row (fun h => net_row params (eval fs h)).
Proof.
  revert fs. induction params as [|layer rest IH]; intros fs Hfs; [by left|].
  destruct rest as [|layer' rest'].
  - simpl. by apply affine_row_smooth.
  - destruct (affine_row_smooth fs layer Hfs) as [Hn|(gs & Hgs & Hs)].
    + left. intros h.
      by rewrite net_row_cons, Hn.
    + destruct (IH ((fun g h => tanh (g h)) <$> gs)) as [Hn|(ks & Hks & Hk)].
      { apply Forall_fmap. eapply Forall_impl; [done|]. intros g Hg.
        by apply twice_differentiable_tanh. }
      * left. intros h.
        rewrite net_row_cons, Hs. cbv beta iota delta [mbind option_bind].
        rewrite <- (Hn h). f_equal. unfold eval. by rewrite <- !list_fmap_compose.
      * right. exists ks. split; [done|]. intros h.
        rewrite net_row_cons, Hs. cbv beta iota delta [mbind option_bind].
        rewrite <- (Hk h). f_equal. unfold eval. by rewrite <- !list_fmap_compose.
Qed.

Lemma u_row_smooth_x (params : list Layer) (t : R) :
  smooth_row (fun h => u_row params h t).
Proof.
  destruct (net_row_smooth params [fun h => h; fun _ => t]) as [Hn|(gs & Hgs & Hs)].
  { constructor; [apply twice_differentiable_id|].
    constructor; [apply twice_differentiable_const|constructor]. }
  - left. intros h. unfold u_row. specialize (Hn h). simpl in Hn. by rewrite Hn.
  - right. exists ((fun g h => g h * h + (1 - h)) <$> gs). split.
    + apply Forall_fmap. eapply Forall_impl; [done|]. intros g Hg. simpl.
      apply twice_differentiable_plus.
      * apply twice_differentiable_mult; [done|apply twice_differentiable_id].
      * apply (twice_differentiable_ext (fun h => 1 + (-1) * h)); [intros; ring|].
        apply twice_differentiable_plus; [apply twice_differentiable_const|].
        apply twice_differentiable_mult;
          [apply twice_differentiable_const|apply twice_differentiable_id].
    + intros h. unfold u_row. specialize (Hs h). simpl in Hs. rewrite Hs.
      simpl. f_equal. unfold eval. by rewrite <- !list_fmap_compose.
Qed.

Lemma u_row_smooth_t (params : list Layer) (x : R) :
  smooth_row (fun h => u_row params x h).
Proof.
  destruct (net_row_smooth params [fun _ => x; fun h => h]) as [Hn|(gs & Hgs & Hs)].
  { constructor; [apply twice_differentiable_const|].
    constructor; [apply twice_differentiable_id|constructor]. }
  - left. intros h. unfold u_row. specialize (Hn h). simpl in Hn. by rewrite Hn.
  - right. exists ((fun g h => g h * x + (1 - x)) <$> gs). split.
    + apply Forall_fmap. eapply Forall_impl; [done|]. intros g Hg. simpl.
      apply twice_differentiable_plus; [|apply twice_differentiable_const].
      apply twice_differentiable_mult; [done|apply twice_differentiable_const].
    + intros h. unfold u_row. specialize (Hs h). simpl in Hs. rewrite Hs.
      simpl. f_equal. unfold eval. by rewrite <- !list_fmap_compose.
Qed.

Lemma smooth_row_sum (F : R -> option (list R)) :
  smooth_row F -> twice_differentiable (fun h => default 0 (Rsum <$> F h)).
Proof.
  intros [Hn|(gs & Hgs & Hs)].
  - eapply twice_differentiable_ext; [|apply (twice_differentiable_const 0)].
    intros h. by rewrite Hn.
  - eapply twice_differentiable_ext; [|apply (Rsum_twice_differentiable gs Hgs)].
    intros h. by rewrite Hs.
Qed.

(** The scalar output is twice differentiable in x and in t, for every
    ParameterSet: its derivatives are limits of difference quotients. *)
Lemma u_point_smooth_x (params : list Layer) (t : R) :
  twice_differentiable (fun h => u_point params h t).
Proof. apply smooth_row_sum, u_row_smooth_x. Qed.

Lemma u_point_smooth_t (params : list Layer) (x : R) :
  twice_differentiable (fun h => u_point params x h).
Proof. apply smooth_row_sum, u_row_smooth_t. Qed.

Lemma u_point_x_correct (params : list Layer) (x t : R) :
  derivable_pt_lim (fun h => u_point params h t) x (u_point_x params x t).
Proof. apply differentiable_deriv, u_point_smooth_x. Qed.

Lemma u_point_xx_correct (params : list Layer) (x t : R) :
  derivable_pt_lim (fun h => u_point_x params h t) x (u_point_xx params x t).
Proof. apply (differentiable_deriv (deriv (fun h => u_point params h t))), u_point_smooth_x. Qed.

Lemma u_point_t_correct (params : list Layer) (x t : R) :
  derivable_pt_lim (fun h => u_point params x h) t (u_point_t params x t).
Proof. apply differentiable_deriv, u_point_smooth_t. Qed.

(** C2: on every batch that the Forward Model accepts, the three closures
    built by differentiating the sum of u over the batch return, at each
    position i, the partial derivatives of the scalar output at (x_i, t_i):
    u_x the limit of the difference quotient in x, u_xx the limit of the
    difference quotient of that first derivative, u_t the limit of the
    difference quotient in t. *)
Theorem differential_operator_pointwise (params : list Layer) (x t : col) (U : mat) :
  neural_net_with_hard_constraint params x t = Some U ->
  exists ux uxx ut,
    u_x (neural_net_with_hard_constraint params) x t = Some ux /\
    u_xx (neural_net_with_hard_constraint params) x t = Some uxx /\
    u_t (neural_net_with_hard_constraint params) x t = Some ut /\
    forall i xi ti, x !! i = Some xi -> t !! i = Some ti ->
      Rsum <$> U !! i = Some (u_point params xi ti) /\
      exists dx dxx dt,
        ux !! i = Some dx /\ uxx !! i = Some dxx /\ ut !! i = Some dt /\
        derivable_pt_lim (fun h => u_point params h ti) xi dx /\
        (forall h, derivable_pt_lim (fun k => u_point params k ti) h
                     (u_point_x params h ti)) /\
        derivable_pt_lim (fun h => u_point_x params h ti) xi dxx /\
        derivable_pt_lim (fun h => u_point params xi h) ti dt.
Proof.
  intros HU.
  exists (zip_with (u_point_x params) x t), (zip_with (u_point_xx params) x t),
    (zip_with (u_point_t params) x t).
  split; [by eapply u_x_pointwise|].
  split; [by eapply u_xx_pointwise|].
  split; [by eapply u_t_pointwise|].
  intros i xi ti Hx Ht. split.
  - destruct (hard_constraint_lookup _ _ _ _ _ _ _ HU Hx Ht) as (row & -> & Hrow).
    simpl. by rewrite u_point_row, Hrow.
  - exists (u_point_x params xi ti), (u_point_xx params xi ti), (u_point_t params xi ti).
    rewrite !lookup_zip_with, Hx, Ht. simpl.
    repeat split; try done.
    + apply u_point_x_correct.
    + intros h. apply u_point_x_correct.
    + apply u_point_xx_correct.
    + apply u_point_t_correct.
Qed.

Lemma differential_operator_pointwise_witness :
  neural_net_with_hard_constraint demo_params [0; 1] [7; 7] = Some demo_output /\
  exists ux uxx ut,
    u_x (neural_net_with_hard_constraint demo_params) [0; 1] [7; 7] = Some ux /\
    u_xx (neural_net_with_hard_constraint demo_params) [0; 1] [7; 7] = Some uxx /\
    u_t (neural_net_with_hard_constraint demo_params) [0; 1] [7; 7] = Some ut /\
    forall i xi ti, [0; 1] !! i = Some xi -> [7; 7] !! i = Some ti ->
      Rsum <$> demo_output !! i = Some (u_point demo_params xi ti) /\
      exists dx dxx dt,
        ux !! i = Some dx /\ uxx !! i = Some dxx /\ ut !! i = Some dt /\
        derivable_pt_lim (fun h => u_point demo_params h ti) xi dx /\
        (forall h, derivable_pt_lim (fun k => u_point demo_params k ti) h
                     (u_point_x demo_params h ti)) /\
        derivable_pt_lim (fun h => u_point_x demo_params h ti) xi dxx /\
        derivable_pt_lim (fun h => u_point demo_params xi h) ti dt.
Proof.
  split; [reflexivity|].
  apply (differential_operator_pointwise demo_params [0; 1] [7; 7] demo_output).
  reflexivity.
Defined.

(** ** Residual assembler *)

Lemma t0_fst (xb : list R) : (t0 xb).*1 = xb.
Proof. unfold t0. apply (fst_zip xb). by rewrite length_fmap, length_replicate. Qed.

Lemma t0_snd (xb : list R) : (t0 xb).*2 = replicate (length xb) tmin.
Proof.
  unfold t0.
  rewrite (snd_zip xb) by (by rewrite length_fmap, length_replicate).
  rewrite fmap_replicate. f_equal. apply Rmult_1_l.
Qed.

(** C3: for every batch and every model function u, the first component
    returned is u_t - 0.1 (-u_x + u_xx), position by position on the batch,
    and the second is u - 0 on the initial-time points: the sampled xb,
    each paired with tmin, whatever the batch is. *)
Theorem residual_assembler (xb x t : col) (u : col -> col -> option mat)
    (pde_residual ic1 : col) :
  pde_residual_2d_darcy xb x t u = Some (pde_residual, ic1) ->
  exists ut ux uxx U0,
    u_t u x t = Some ut /\ u_x u x t = Some ux /\ u_xx u x t = Some uxx /\
    u xb (replicate (length xb) tmin) = Some U0 /\
    (forall i r, pde_residual !! i = Some r <->
       exists a b c, ut !! i = Some a /\ ux !! i = Some b /\ uxx !! i = Some c /\
                     r = a - 1/10 * (- b + c)) /\
    ic1 = (fun v => v - 0) <$> concat U0.
Proof.
  unfold pde_residual_2d_darcy. rewrite t0_fst, t0_snd. intros H.
  destruct (u xb (replicate (length xb) tmin)) as [U0|]; [|done].
  destruct (u_t u x t) as [ut|]; [|done].
  destruct (u_x u x t) as [ux|]; [|done].
  destruct (u_xx u x t) as [uxx|]; [|done].
  simpl in H. injection H as <- <-.
  exists ut, ux, uxx, U0. repeat split; try done.
  - rewrite lookup_zip_with, list_lookup_fmap, lookup_zip_with, list_lookup_fmap.
    intros Hr.
    destruct (ut !! i) as [a|]; [|done].
    destruct (ux !! i) as [b|]; [|done].
    destruct (uxx !! i) as [c|]; [|done].
    simpl in Hr. exists a, b, c. repeat split; try done. congruence.
  - intros (a & b & c & Ha & Hb & Hc & ->).
    rewrite lookup_zip_with, list_lookup_fmap, lookup_zip_with, list_lookup_fmap.
    by rewrite Ha, Hb, Hc.
Qed.

Lemma residual_forward (xb x t : col) (params : list Layer) (U U0 : mat) :
  neural_net_with_hard_constraint params x t = Some U ->
  neural_net_with_hard_constraint params xb (replicate (length xb) tmin) = Some U0 ->
  pde_residual_2d_darcy xb x t (neural_net_with_hard_constraint params)
  = Some (zip_with (residual_point params) x t, (fun v => v - 0) <$> concat U0).
Proof.
  intros HU HU0. unfold pde_residual_2d_darcy.
  rewrite t0_fst, t0_snd, HU0.
  rewrite (u_t_pointwise _ _ _ _ HU), (u_x_pointwise _ _ _ _ HU),
    (u_xx_pointwise _ _ _ _ HU).
  simpl. do 2 f_equal.
  destruct (hard_constraint_Some _ _ _ _ HU) as [_ Hlen].
  clear -Hlen. revert t Hlen.
  induction x as [|a x IH]; intros [|b t] Hlen; simplify_eq/=; [done|].
  f_equal. by apply IH.
Qed.

Lemma residual_assembler_witness :
  pde_residual_2d_darcy [3] [0; 1] [7; 7] (neural_net_with_hard_constraint demo_params)
  = Some (zip_with (residual_point demo_params) [0; 1] [7; 7],
          [(tanh (3 * 1 + (tmin * 0 + 0) + 0) * 2 +
              (tanh (3 * 0 + (tmin * 1 + 0) + 0) * 3 + 0) + 5) * 3 + (1 - 3) - 0]) /\
  exists ut ux uxx U0,
    u_t (neural_net_with_hard_constraint demo_params) [0; 1] [7; 7] = Some ut /\
    u_x (neural_net_with_hard_constraint demo_params) [0; 1] [7; 7] = Some ux /\
    u_xx (neural_net_with_hard_constraint demo_params) [0; 1] [7; 7] = Some uxx /\
    neural_net_with_hard_constraint demo_params [3] (replicate (length [3]) tmin) = Some U0 /\
    (forall i r, zip_with (residual_point demo_params) [0; 1] [7; 7] !! i = Some r <->
       exists a b c, ut !! i = Some a /\ ux !! i = Some b /\ uxx !! i = Some c /\
                     r = a - 1/10 * (- b + c)) /\
    [(tanh (3 * 1 + (tmin * 0 + 0) + 0) * 2 +
        (tanh (3 * 0 + (tmin * 1 + 0) + 0) * 3 + 0) + 5) * 3 + (1 - 3) - 0]
    = (fun v => v - 0) <$> concat U0.
Proof.
  assert (pde_residual_2d_darcy [3] [0; 1] [7; 7]
            (neural_net_with_hard_constraint demo_params)
          = Some (zip_with (residual_point demo_params) [0; 1] [7; 7],
                  [(tanh (3 * 1 + (tmin * 0 + 0) + 0) * 2 +
                      (tanh (3 * 0 + (tmin * 1 + 0) + 0) * 3 + 0) + 5) * 3
                   + (1 - 3) - 0])) as H.
  { by erewrite residual_forward by reflexivity. }
  split; [exact H|].
  exact (residual_assembler _ _ _ _ _ _ H).
Defined.

(** ** Time weighting *)


Lemma lambda_t_le (t : R) : t <= 1/10 -> lambda_t t = lambda_early t.
Proof.
  intros Ht. unfold lambda_t, mask_le, mask_gt.
  destruct (Rle_dec t (1/10)), (Rlt_dec (1/10) t); lra.
Qed.

Lemma lambda_t_gt (t : R) : 1/10 < t -> lambda_t t = lambda_late t.
Proof.
  intros Ht. unfold lambda_t, mask_le, mask_gt.
  destruct (Rle_dec t (1/10)), (Rlt_dec (1/10) t); lra.
Qed.

(** The masked sum of the code is the two-sided formula of the specification. *)
Lemma lambda_t_spec (t : R) : lambda_t t = lambda_spec tmin tmax t.
Proof.
  unfold lambda_spec. destruct (Rle_dec t (1/10)) as [Ht|Ht].
  - rewrite lambda_t_le by done. unfold lambda_early, tmin. by rewrite Rminus_0_r.
  - rewrite lambda_t_gt by lra. done.
Qed.




Lemma lambda_early_breakpoint : lambda_early (1/10) = 1.
Proof. unfold lambda_early, tmin. field. Qed.

Lemma lambda_late_breakpoint : lambda_late (1/10) = 86/5.
Proof. unfold lambda_late, tmin, tmax. field. Qed.

(** ** Loss assembler *)

Lemma Rsum_nonneg (l : list R) : Forall (fun v => 0 <= v) l -> 0 <= Rsum l.
Proof. induction 1; simpl; lra. Qed.

Lemma mean_Some (l : list R) (m : R) :
  mean l = Some m -> l <> [] /\ m = Rsum l / INR (length l).
Proof. destruct l; intros H; simplify_eq/=. done. Qed.


Lemma loss_fun_unfold (xb : list R) (params : list Layer) (colloc : list (R * R)) (L : R) :
  loss_fun xb params colloc = Some L ->
  exists pde_residual ic1 pde_loss ic_mean,
    pde_residual_2d_darcy xb colloc.*1 colloc.*2
      (neural_net_with_hard_constraint params) = Some (pde_residual, ic1) /\
    mean (zip_with Rmult (lambda_t <$> colloc.*2) ((fun r => r ^ 2) <$> pde_residual))
      = Some pde_loss /\
    mean ((fun r => r ^ 2) <$> ic1) = Some ic_mean /\
    L = pde_loss + 100 * ic_mean.
Proof.
  unfold loss_fun. intros H.
  destruct (pde_residual_2d_darcy _ _ _ _) as [[res ic]|]; [|done].
  simpl in H.
  destruct (mean (zip_with _ _ _)) as [pl|] eqn:Hpl; [|done]. simpl in H.
  destruct (mean (_ <$> ic)) as [im|] eqn:Him; [|done]. simpl in H.
  injection H as <-. exists res, ic, pl, im. by repeat split.
Qed.

Lemma residual_forward_inv (xb x t : col) (params : list Layer) (res ic : col) :
  pde_residual_2d_darcy xb x t (neural_net_with_hard_constraint params) = Some (res, ic) ->
  exists U U0,
    neural_net_with_hard_constraint params x t = Some U /\
    neural_net_with_hard_constraint params xb (replicate (length xb) tmin) = Some U0 /\
    res = zip_with (residual_point params) x t /\
    ic = (fun v => v - 0) <$> concat U0.
Proof.
  intros H.
  assert (is_Some (neural_net_with_hard_constraint params x t)) as [U HU].
  { unfold pde_residual_2d_darcy in H.
    destruct (_ <$> neural_net_with_hard_constraint params _ _); [|done].
    simpl in H. unfold u_t at 1, grad1 in H.
    destruct (neural_net_with_hard_constraint params x t); [done|]. done. }
  assert (is_Some (neural_net_with_hard_constraint params xb
                     (replicate (length xb) tmin))) as [U0 HU0].
  { unfold pde_residual_2d_darcy in H. rewrite t0_fst, t0_snd in H.
    destruct (neural_net_with_hard_constraint params xb _); [done|]. done. }
  rewrite (residual_forward _ _ _ _ _ _ HU HU0) in H.
  exists U, U0. by simplify_eq.
Qed.

Lemma zip_with_weights (ts rs : list R) :
  zip_with Rmult (lambda_t <$> ts) ((fun r => r ^ 2) <$> rs)
  = zip_with (fun t r => lambda_spec tmin tmax t * r ^ 2) ts rs.
Proof.
  revert rs. induction ts as [|t ts IH]; intros [|r rs]; simpl; [done..|].
  by rewrite IH, lambda_t_spec.
Qed.

(** C4: whenever the loss function returns, its value is the mean over the
    batch of lambda(t) * pde_residual^2, with lambda the two-sided schedule of
    the specification, plus 100 times the mean of ic_residual^2, and nothing
    else: there is no boundary term. *)
Theorem loss_assembler (xb : list R) (params : list Layer) (colloc : list (R * R)) (L : R) :
  loss_fun xb params colloc = Some L ->
  exists pde_residual ic1,
    pde_residual_2d_darcy xb colloc.*1 colloc.*2
      (neural_net_with_hard_constraint params) = Some (pde_residual, ic1) /\
    length pde_residual = length colloc /\ colloc <> [] /\ ic1 <> [] /\
    L = Rsum (zip_with (fun t r => lambda_spec tmin tmax t * r ^ 2) colloc.*2 pde_residual)
          / INR (length colloc)
        + 100 * (Rsum ((fun r => r ^ 2) <$> ic1) / INR (length ic1)).
Proof.
  intros HL.
  destruct (loss_fun_unfold _ _ _ _ HL) as (res & ic & pl & im & Hres & Hpl & Him & ->).
  destruct (residual_forward_inv _ _ _ _ _ _ Hres) as (U & U0 & HU & HU0 & Hr & Hi).
  assert (length res = length colloc) as Hlen.
  { rewrite Hr, length_zip_with, !length_fmap. lia. }
  apply mean_Some in Hpl as [Hne1 ->]. apply mean_Some in Him as [Hne2 ->].
  rewrite zip_with_weights in *.
  exists res, ic. split; [done|]. split; [done|].
  split; [by intros ->|]. split; [by intros ->|].
  rewrite length_zip_with, !length_fmap, Hlen.
  by replace (length colloc `min` length colloc)%nat with (length colloc) by lia.
Qed.



Lemma concat_singletons_length (U : mat) :
  Forall (fun row => length row = 1%nat) U -> length (concat U) = length U.
Proof. induction 1 as [|row U Hrow _ IH]; simpl; [done|]. rewrite length_app. lia. Qed.

Lemma loss_fun_eq (xb : list R) (params : list Layer) (colloc : list (R * R)) :
  loss_fun xb params colloc
  = pde_residual_2d_darcy xb colloc.*1 colloc.*2 (neural_net_with_hard_constraint params)
    ≫= fun '(pde_residual, ic1) =>
      pde_loss ← mean (zip_with Rmult (lambda_t <$> colloc.*2)
                         ((fun r => r ^ 2) <$> pde_residual));
      ic_mean ← mean ((fun r => r ^ 2) <$> ic1);
      Some (pde_loss + 100 * ic_mean).
Proof. reflexivity. Qed.


(** *** The loss on binary32 entries *)
















Lemma demo_loss_fun : loss_fun [3] demo_params [(0, 7); (1, 7)] = Some demo_loss.
Proof.
  rewrite loss_fun_eq.
  change ([(0, 7); (1, 7)].*1) with [0; 1].
  change ([(0, 7); (1, 7)].*2) with [7; 7].
  by erewrite (residual_forward [3] [0; 1] [7; 7] demo_params) by reflexivity.
Qed.

Lemma loss_assembler_witness :
  loss_fun [3] demo_params [(0, 7); (1, 7)] = Some demo_loss /\
  exists pde_residual ic1,
    pde_residual_2d_darcy [3] [(0, 7); (1, 7)].*1 [(0, 7); (1, 7)].*2
      (neural_net_with_hard_constraint demo_params) = Some (pde_residual, ic1) /\
    length pde_residual = length [(0, 7); (1, 7)] /\
    [(0, 7); (1, 7)] <> [] /\ ic1 <> [] /\
    demo_loss
    = Rsum (zip_with (fun t r => lambda_spec tmin tmax t * r ^ 2)
              [(0, 7); (1, 7)].*2 pde_residual)
        / INR (length [(0, 7); (1, 7)])
      + 100 * (Rsum ((fun r => r ^ 2) <$> ic1) / INR (length ic1)).
Proof.
  split; [exact demo_loss_fun|].
  exact (loss_assembler [3] demo_params [(0, 7); (1, 7)] demo_loss demo_loss_fun).
Defined.



(** ** The breakpoint of the schedule *)

(** C5 as stated fails: at t = 0.1 the early formula gives 1 and the late
    formula 17.2 (with tmin = 0, tmax = 1). *)
Lemma weighting_branches_differ_at_breakpoint :
  lambda_early (1/10) <> lambda_late (1/10).
Proof. rewrite lambda_early_breakpoint, lambda_late_breakpoint. lra. Qed.

(** C5, as the code has it (with tmin = 0, tmax = 1): at t = 0.1 the
    schedule takes the value 1 of its early formula, where the late formula
    gives 17.2; at every t above 0.1 the schedule is the late formula
    20 (1 - t)^2 + 1, which lies between 13.8 and 17.2 up to t = 0.2 and
    tends to 17.2 as t decreases to 0.1: the schedule jumps by 16.2 at
    t = 0.1. *)
Theorem weighting_jump_at_breakpoint (t : R) :
  1/10 < t < 1/5 ->
  lambda_t (1/10) = 1 /\ lambda_early (1/10) = 1 /\ lambda_late (1/10) = 86/5 /\
  69/5 < lambda_t t < 86/5 /\
  (forall s, 1/10 < s -> lambda_t s = 20 * (1 - s) ^ 2 + 1) /\
  (forall eps, 0 < eps ->
     exists delta, 0 < delta /\
       forall s, 1/10 < s < 1/10 + delta ->
         Rabs (lambda_t s - lambda_t (1/10) - 81/5) < eps).
Proof.
  intros Ht.
  assert (forall s, 1/10 < s -> lambda_t s = 20 * (1 - s) ^ 2 + 1) as Hlate.
  { intros s Hs. rewrite lambda_t_gt by done. unfold lambda_late, tmin, tmax.
    replace ((s - 0) / (1 - 0)) with s by field. done. }
  rewrite (lambda_t_le (1/10)) by lra.
  split; [apply lambda_early_breakpoint|].
  split; [apply lambda_early_breakpoint|].
  split; [apply lambda_late_breakpoint|].
  split; [rewrite Hlate by lra; nra|].
  split; [exact Hlate|].
  intros eps Heps. exists (Rmin 1 (eps / 36)).
  assert (0 < Rmin 1 (eps / 36)) as Hpos.
  { apply Rmin_glb_lt; lra. }
  split; [exact Hpos|]. intros s Hs.
  pose proof (Rmin_l 1 (eps / 36)) as H1.
  pose proof (Rmin_r 1 (eps / 36)) as H2.
  rewrite Hlate by lra. rewrite lambda_early_breakpoint.
  apply Rabs_def1; nra.
Qed.

Lemma weighting_jump_at_breakpoint_witness :
  1/10 < 3/20 < 1/5 /\
  lambda_t (1/10) = 1 /\ lambda_early (1/10) = 1 /\ lambda_late (1/10) = 86/5 /\
  69/5 < lambda_t (3/20) < 86/5 /\
  (forall s, 1/10 < s -> lambda_t s = 20 * (1 - s) ^ 2 + 1) /\
  (forall eps, 0 < eps ->
     exists delta, 0 < delta /\
       forall s, 1/10 < s < 1/10 + delta ->
         Rabs (lambda_t s - lambda_t (1/10) - 81/5) < eps).
Proof.
  split; [lra|]. apply (weighting_jump_at_breakpoint (3/20)). lra.
Defined.

(** ** Parameter initialisation *)

Lemma xavier_bound_nonneg (n_in : nat) : 0 <= 1 / sqrt (INR n_in).
Proof.
  pose proof (sqrt_pos (INR n_in)) as Hs.
  destruct (Req_dec (sqrt (INR n_in)) 0) as [->|Hne].
  - unfold Rdiv. rewrite Rinv_0. lra.
  - apply Rlt_le, Rdiv_lt_0_compat; lra.
Qed.

Lemma xavier_scaled (n_in : nat) (r : R) :
  in_unit_interval r ->
  within_xavier n_in
    (- (1 / sqrt (INR n_in)) + (1 / sqrt (INR n_in) - - (1 / sqrt (INR n_in))) * r).
Proof.
  unfold within_xavier, in_unit_interval. intros Hr.
  pose proof (xavier_bound_nonneg n_in). nra.
Qed.

Lemma lookup_removelast {A : Type} (l : list A) (i : nat) (a : A) :
  removelast l !! i = Some a -> l !! i = Some a.
Proof.
  revert i. induction l as [|b l IH]; intros i; [done|].
  destruct l as [|c l]; [done|].
  change (removelast (b :: c :: l)) with (b :: removelast (c :: l)).
  destruct i; simpl; [done|]. apply IH.
Qed.

Section InitProps.
Context {Key : Type}.
Variable PRNGKey : nat -> Key.
Variable split : Key -> nat -> list Key.
Variable uniform2 : Key -> nat -> nat -> mat.
Variable uniform1 : Key -> nat -> list R.

(** [jax.random.uniform] draws from [0, 1). *)
Hypothesis uniform2_range :
  forall key n m, Forall (Forall in_unit_interval) (uniform2 key n m).
Hypothesis uniform1_range :
  forall key n, Forall in_unit_interval (uniform1 key n).

Lemma init_layer_ranges (key : Key) (n_in n_out : nat) :
  Forall (Forall (within_xavier n_in)) (W (init_layer uniform2 uniform1 key n_in n_out))
  /\ Forall in_unit_interval (B (init_layer uniform2 uniform1 key n_in n_out)).
Proof.
  split; simpl; [|apply uniform1_range].
  apply Forall_fmap. eapply Forall_impl; [apply uniform2_range|].
  intros row Hrow. simpl. apply Forall_fmap.
  eapply Forall_impl; [exact Hrow|]. intros r Hr. by apply xavier_scaled.
Qed.

(** C9, as the code has it: in every Layer that [init_params] returns, each
    entry of the weight matrix lies within the Xavier bounds
    -1/sqrt(inputs) .. 1/sqrt(inputs) of that layer, inputs being the
    layer's input width, and each entry of the bias vector is the unscaled
    draw, anywhere in [0, 1). *)
Theorem init_params_ranges (layers : list nat) (params : list Layer)
    (i : nat) (layer : Layer) :
  init_params PRNGKey split uniform2 uniform1 layers = Some params ->
  params !! i = Some layer ->
  exists n_in, layers !! i = Some n_in /\
    Forall (Forall (within_xavier n_in)) (W layer) /\
    Forall in_unit_interval (B layer).
Proof.
  unfold init_params. intros Hp Hl. destruct layers as [|n0 layers']; [done|].
  injection Hp as <-.
  apply lookup_zip_with_Some in Hl as (key & [n_in n_out] & -> & _ & Hz).
  apply lookup_zip_Some in Hz as [Hin _].
  exists n_in. split; [by apply lookup_removelast|].
  apply init_layer_ranges.
Qed.
End InitProps.

Lemma const_init_params :
  init_params (fun seed => seed) const_split const_uniform2 const_uniform1 [4; 1]%nat
  = Some [const_layer].
Proof. reflexivity. Qed.

Lemma sqrt_INR_4 : sqrt (INR 4) = 2.
Proof. replace (INR 4) with (2 * 2) by (simpl; lra). apply sqrt_square. lra. Qed.

Lemma init_params_ranges_witness :
  (forall key n m, Forall (Forall in_unit_interval) (const_uniform2 key n m)) /\
  (forall key n, Forall in_unit_interval (const_uniform1 key n)) /\
  init_params (fun seed => seed) const_split const_uniform2 const_uniform1 [4; 1]%nat
  = Some [const_layer] /\
  exists n_in, [4; 1]%nat !! 0%nat = Some n_in /\
    Forall (Forall (within_xavier n_in)) (W const_layer) /\
    Forall in_unit_interval (B const_layer).
Proof.
  assert (in_unit_interval (3/4)) as H34 by (unfold in_unit_interval; lra).
  assert (forall key n m, Forall (Forall in_unit_interval) (const_uniform2 key n m)) as H2.
  { intros key n m. apply Forall_replicate, Forall_replicate, H34. }
  assert (forall key n, Forall in_unit_interval (const_uniform1 key n)) as H1.
  { intros key n. apply Forall_replicate, H34. }
  split; [exact H2|]. split; [exact H1|]. split; [reflexivity|].
  exact (init_params_ranges (fun seed => seed) const_split const_uniform2 const_uniform1
           H2 H1 [4; 1]%nat _ 0%nat _ const_init_params eq_refl).
Defined.

(** C9 as stated fails: with a sampler that stays in [0, 1), the bias of a
    layer with 4 inputs is 3/4, outside the Xavier interval of that layer. *)
Lemma init_params_bias_outside_xavier :
  init_params (fun seed => seed) const_split const_uniform2 const_uniform1 [4; 1]%nat
  = Some [const_layer] /\
  in_unit_interval (3/4) /\
  ~ Forall (within_xavier 4) (B const_layer).
Proof.
  split; [reflexivity|]. split; [unfold in_unit_interval; lra|].
  intros H. apply Forall_inv in H as [_ H].
  rewrite sqrt_INR_4 in H. lra.
Qed.

(** ** The order of IEEE values *)

Lemma SFleb_key (a b : spec_float) :
  not_nan a -> not_nan b ->
  SFleb a b = true <-> key_le (float_key a) (float_key b).
Proof.
  unfold not_nan, SFleb, SFcompare, key_le.
  intros Ha Hb. destruct a as [[]|[]| |[] ma ea], b as [[]|[]| |[] mb eb];
    simpl; try done; try (split; [intros _; lia | done]);
    try (split; [done | lia]).
  - destruct (Z.compare_spec ea eb); simpl.
    + rewrite Pos.compare_cont_spec. simpl.
      destruct (Pos.compare_spec ma mb); simpl; split; try done; lia.
    + split; [done|lia].
    + split; [intros _; lia|done].
  - destruct (Z.compare_spec ea eb); simpl.
    + rewrite Pos.compare_cont_spec. simpl.
      destruct (Pos.compare_spec ma mb); simpl; split; try done; lia.
    + split; [intros _; lia|done].
    + split; [done|lia].
Qed.

Lemma SFltb_key (a b : spec_float) :
  SFltb a b = true -> not_nan a /\ not_nan b /\ key_lt (float_key a) (float_key b).
Proof.
  unfold not_nan, SFltb, SFcompare, key_lt.
  destruct a as [[]|[]| |[] ma ea], b as [[]|[]| |[] mb eb];
    simpl; try done; try (intros _; repeat split; try done; lia).
  - destruct (Z.compare_spec ea eb); simpl.
    + rewrite Pos.compare_cont_spec. simpl.
      destruct (Pos.compare_spec ma mb); simpl; try done.
      intros _; repeat split; try done; lia.
    + done.
    + intros _; repeat split; try done; lia.
  - destruct (Z.compare_spec ea eb); simpl.
    + rewrite Pos.compare_cont_spec. simpl.
      destruct (Pos.compare_spec ma mb); simpl; try done.
      intros _; repeat split; try done; lia.
    + intros _; repeat split; try done; lia.
    + done.
Qed.

Lemma SFltb_leb (a b : spec_float) : SFltb a b = true -> SFleb a b = true.
Proof.
  intros H. apply SFltb_key in H as (Ha & Hb & Hk).
  apply SFleb_key; [done..|]. unfold key_lt, key_le in *. lia.
Qed.

Lemma SFleb_refl (a : spec_float) : not_nan a -> SFleb a a = true.
Proof. intros Ha. apply SFleb_key; [done..|]. unfold key_le. lia. Qed.

Lemma SFleb_trans (a b c : spec_float) :
  not_nan b -> SFleb a b = true -> SFleb b c = true -> SFleb a c = true.
Proof.
  intros Hb Hab Hbc.
  assert (not_nan a) as Ha by (intros ->; by destruct b).
  assert (not_nan c) as Hc by (intros ->; by destruct b as [| | |[]]).
  apply SFleb_key in Hab, Hbc; try done.
  apply SFleb_key; [done..|]. unfold key_le in *. lia.
Qed.

(** ** Training loop *)

Section TrainingProps.
Context {Params OptState Grads Updates Point Generator : Type}.
Variable loss_fun_jit : Params -> list Point -> spec_float.
Variable grad_loss_fun : Params -> list Point -> Grads.
Variable optimizer_update : Grads -> OptState -> Updates * OptState.
Variable apply_updates : Params -> Updates -> Params.
Variable lbfgs_run : Params -> list Point -> Params.
Variable choice : Generator -> nat -> nat -> list nat * Generator.
Variable colloc : list Point.
Variables epochs epochs_lbfgs batch_size : nat.

Local Abbreviation State := (TrainState Params OptState Generator).
Local Abbreviation adam :=
  (adam_epoch loss_fun_jit grad_loss_fun optimizer_update apply_updates
     choice colloc batch_size).
Local Abbreviation lbfgs :=
  (lbfgs_epoch (OptState:=OptState) loss_fun_jit lbfgs_run choice colloc
     epochs batch_size).

Lemma adam_epoch_tracker (st : State) (epoch : nat) :
  tracker_step st (adam st epoch) epoch.
Proof.
  unfold tracker_step, adam_epoch, update.
  destruct (choice _ _ _) as [idx g].
  destruct (optimizer_update _ _) as [updates os].
  eexists. destruct (SFltb _ _) eqn:Hlt; simpl; rewrite ?Hlt; by repeat split.
Qed.

Lemma lbfgs_epoch_tracker (st : State) (epoch : nat) :
  tracker_step st (lbfgs st epoch) (epoch + epochs).
Proof.
  unfold tracker_step, lbfgs_epoch, update_lbfgs.
  destruct (choice _ _ _) as [idx g].
  eexists. destruct (SFltb _ _) eqn:Hlt; simpl; rewrite ?Hlt; by repeat split.
Qed.

Lemma descends_step (step : State -> nat -> State) (st : State) (e : nat) :
  descends step -> not_nan (best_loss st) ->
  not_nan (best_loss (step st e)) /\
  SFleb (best_loss (step st e)) (best_loss st) = true.
Proof.
  intros Hd Hn. destruct (Hd st e) as (e' & cur & _ & _ & H).
  destruct (SFltb cur (best_loss st)) eqn:Hlt.
  - destruct H as (-> & _ & _). split; [|by apply SFltb_leb].
    by apply SFltb_key in Hlt as (? & _).
  - destruct H as (-> & _ & _). split; [assumption|by apply SFleb_refl].
Qed.

Lemma states_from_chain (step : State -> nat -> State) (st : State)
    (es : list nat) (i : nat) (si : State) :
  descends step -> not_nan (best_loss st) ->
  states_from step st es !! i = Some si ->
  not_nan (best_loss si) /\ SFleb (best_loss si) (best_loss st) = true.
Proof.
  intros Hd. revert st i. induction es as [|e es IH]; intros st i Hn Hi; [done|].
  destruct (descends_step step st e Hd Hn) as [Hn' Hle].
  destruct i as [|i]; simpl in Hi.
  - simplify_eq. split; [exact Hn'|exact Hle].
  - destruct (IH _ _ Hn' Hi) as [Hsi Hle']. split; [exact Hsi|].
    exact (SFleb_trans _ _ _ Hn' Hle' Hle).
Qed.

Lemma states_from_sorted (step : State -> nat -> State) (st : State)
    (es : list nat) (i j : nat) (si sj : State) :
  descends step -> not_nan (best_loss st) -> (i <= j)%nat ->
  states_from step st es !! i = Some si ->
  states_from step st es !! j = Some sj ->
  SFleb (best_loss sj) (best_loss si) = true.
Proof.
  intros Hd. revert st i j. induction es as [|e es IH]; intros st i j Hn Hij Hi Hj; [done|].
  destruct (descends_step step st e Hd Hn) as [Hn' Hle].
  destruct i as [|i], j as [|j]; simpl in Hi, Hj; simplify_eq.
  - by apply SFleb_refl.
  - by destruct (states_from_chain step _ _ _ _ Hd Hn' Hj).
  - lia.
  - eapply (IH _ i j); [exact Hn'|lia|eassumption..].
Qed.

Lemma foldl_chain (step : State -> nat -> State) (st : State) (es : list nat) :
  descends step -> not_nan (best_loss st) ->
  not_nan (best_loss (foldl step st es)) /\
  SFleb (best_loss (foldl step st es)) (best_loss st) = true /\
  forall i si, states_from step st es !! i = Some si ->
    SFleb (best_loss (foldl step st es)) (best_loss si) = true.
Proof.
  intros Hd. revert st. induction es as [|e es IH]; intros st Hn; simpl.
  - split; [assumption|]. split; [by apply SFleb_refl|done].
  - destruct (descends_step step st e Hd Hn) as [Hn' Hle].
    destruct (IH _ Hn') as (Hf & Hfl & Hall).
    split; [exact Hf|]. split; [exact (SFleb_trans _ _ _ Hn' Hfl Hle)|].
    intros [|i] si Hi; simpl in Hi; simplify_eq; [done|]. by apply (Hall i).
Qed.

Lemma adam_descends : descends adam.
Proof. intros st e. exists e. apply adam_epoch_tracker. Qed.

Lemma lbfgs_descends : descends lbfgs.
Proof. intros st e. exists (e + epochs)%nat. apply lbfgs_epoch_tracker. Qed.

Lemma train_states_sorted (st : State) (i j : nat) (si sj : State) :
  not_nan (best_loss st) -> (i <= j)%nat ->
  train_states loss_fun_jit grad_loss_fun optimizer_update apply_updates
    lbfgs_run choice colloc epochs epochs_lbfgs batch_size st !! i = Some si ->
  train_states loss_fun_jit grad_loss_fun optimizer_update apply_updates
    lbfgs_run choice colloc epochs epochs_lbfgs batch_size st !! j = Some sj ->
  SFleb (best_loss sj) (best_loss si) = true.
Proof.
  intros Hn Hij. unfold train_states, adam_phase.
  destruct (foldl_chain adam st (seq 0 (epochs + 1)) adam_descends Hn)
    as (Hf & _ & Hall).
  rewrite !lookup_app_Some. intros [Hi|[Hli Hi]] [Hj|[Hlj Hj]].
  - exact (states_from_sorted adam st _ i j si sj adam_descends Hn Hij Hi Hj).
  - destruct (states_from_chain lbfgs _ _ _ _ lbfgs_descends Hf Hj) as [Hnj Hle].
    exact (SFleb_trans _ _ _ Hf Hle (Hall i si Hi)).
  - apply lookup_lt_Some in Hj. lia.
  - eapply (states_from_sorted lbfgs _ _ _ _ si sj lbfgs_descends Hf);
      [|exact Hi|exact Hj]. lia.
Qed.

(** C6: in the Adam loop and in the L-BFGS loop alike, an epoch
    overwrites the stored (epoch, loss, parameters) exactly when its loss is
    strictly below the stored best loss, and keeps them otherwise; so
    along the states after each epoch of the whole run, the stored best
    loss never increases. *)
Theorem best_model_tracker (opt_state0 : OptState) (params0 : Params)
    (g : Generator) (i j : nat) (si sj : State) :
  (i <= j)%nat ->
  train_states loss_fun_jit grad_loss_fun optimizer_update apply_updates
    lbfgs_run choice colloc epochs epochs_lbfgs batch_size
    (init_state opt_state0 params0 g) !! i = Some si ->
  train_states loss_fun_jit grad_loss_fun optimizer_update apply_updates
    lbfgs_run choice colloc epochs epochs_lbfgs batch_size
    (init_state opt_state0 params0 g) !! j = Some sj ->
  SFleb (best_loss sj) (best_loss si) = true /\
  (forall st epoch, tracker_step st (adam st epoch) epoch) /\
  (forall st epoch, tracker_step st (lbfgs st epoch) (epoch + epochs)).
Proof.
  intros Hij Hi Hj. split; [|split].
  - eapply (train_states_sorted (init_state opt_state0 params0 g));
      [discriminate|eassumption..].
  - apply adam_epoch_tracker.
  - apply lbfgs_epoch_tracker.
Qed.

(** *** Epoch counts *)

Lemma foldl_records (step : State -> nat -> State) (shift : nat -> nat)
    (st : State) (es : list nat) :
  (forall st e, tracker_step st (step st e) (shift e)) ->
  all_epochs (foldl step st es) = all_epochs st ++ (shift <$> es) /\
  length (all_losses (foldl step st es)) = (length (all_losses st) + length es)%nat.
Proof.
  intros Hstep. revert st. induction es as [|e es IH]; intros st; simpl.
  - by rewrite app_nil_r, Nat.add_0_r.
  - destruct (Hstep st e) as (cur & Hl & He & _).
    destruct (IH (step st e)) as [-> ->].
    rewrite He, Hl, length_app, <- app_assoc. simpl. split; [done|lia].
Qed.

Lemma train_records (st : State) :
  all_epochs (train loss_fun_jit grad_loss_fun optimizer_update apply_updates
                lbfgs_run choice colloc epochs epochs_lbfgs batch_size st)
  = all_epochs st ++ seq 0 (epochs + 1)
    ++ ((fun e => e + epochs)%nat <$> seq 0 (epochs_lbfgs + 1)) /\
  length (all_losses (train loss_fun_jit grad_loss_fun optimizer_update
                        apply_updates lbfgs_run choice colloc epochs
                        epochs_lbfgs batch_size st))
  = (length (all_losses st) + (epochs + 1) + (epochs_lbfgs + 1))%nat.
Proof.
  unfold train, lbfgs_phase, adam_phase.
  destruct (foldl_records lbfgs (fun e => e + epochs)%nat
              (foldl adam st (seq 0 (epochs + 1))) (seq 0 (epochs_lbfgs + 1))
              lbfgs_epoch_tracker) as [-> ->].
  destruct (foldl_records adam (fun e => e) st (seq 0 (epochs + 1))
              adam_epoch_tracker) as [-> ->].
  rewrite list_fmap_id, !length_seq, <- app_assoc. done.
Qed.

(** C7, as the code has it: the loops run [range(epochs+1)] and
    [range(epochs_lbfgs+1)], with no early exit: epochs + 1 Adam epochs,
    numbered 0 .. epochs, then epochs_lbfgs + 1 L-BFGS epochs, numbered
    epochs .. epochs + epochs_lbfgs; each appends one loss and one epoch
    index, so the record ends with (epochs + 1) + (epochs_lbfgs + 1)
    entries. *)
Theorem training_epoch_counts (opt_state0 : OptState) (params0 : Params)
    (g : Generator) :
  let final := train loss_fun_jit grad_loss_fun optimizer_update apply_updates
                 lbfgs_run choice colloc epochs epochs_lbfgs batch_size
                 (init_state opt_state0 params0 g) in
  all_epochs final
  = seq 0 (epochs + 1) ++ ((fun e => e + epochs)%nat <$> seq 0 (epochs_lbfgs + 1)) /\
  length (all_losses final) = ((epochs + 1) + (epochs_lbfgs + 1))%nat /\
  length (states_from adam (init_state opt_state0 params0 g) (seq 0 (epochs + 1)))
  = (epochs + 1)%nat /\
  length (states_from lbfgs
            (adam_phase loss_fun_jit grad_loss_fun optimizer_update apply_updates
               choice colloc epochs batch_size (init_state opt_state0 params0 g))
            (seq 0 (epochs_lbfgs + 1)))
  = (epochs_lbfgs + 1)%nat.
Proof.
  intros final. subst final.
  destruct (train_records (init_state opt_state0 params0 g)) as [-> ->].
  assert (forall step (s : State) es, length (states_from step s es) = length es) as Hlen.
  { intros step s es. revert s. induction es as [|e es IH]; intros s; simpl; [done|].
    by rewrite IH. }
  rewrite !Hlen, !length_seq. simpl. done.
Qed.
End TrainingProps.

Lemma best_model_tracker_witness :
  (0 <= 2)%nat /\
  toy_states 1 1 0 !! 0%nat = Some toy_state_0 /\
  toy_states 1 1 0 !! 2%nat = Some toy_state_2 /\
  SFleb (best_loss toy_state_2) (best_loss toy_state_0) = true /\
  (forall (st : TrainState nat unit nat) epoch,
     tracker_step st
       (adam_epoch toy_loss (fun _ _ => tt) (fun _ s => (tt, s)) (fun p _ => S p)
          toy_choice toy_colloc 1 st epoch) epoch) /\
  (forall (st : TrainState nat unit nat) epoch,
     tracker_step st
       (lbfgs_epoch (OptState:=unit) toy_loss (fun p _ => S p) toy_choice toy_colloc 1 1
          st epoch) (epoch + 1)).
Proof.
  split; [lia|]. split; [reflexivity|]. split; [reflexivity|].
  apply (best_model_tracker toy_loss (fun _ _ => tt) (fun _ s => (tt, s))
           (fun p _ => S p) (fun p _ => S p) toy_choice toy_colloc 1 1 1
           tt 0%nat 0%nat 0 2 toy_state_0 toy_state_2);
    [lia|reflexivity|reflexivity].
Defined.

(** C7 as stated fails: with epochs = 20000 and epochs_lbfgs = 250 the record
    of losses does not end with 20000 + 250 entries. *)
Lemma loss_record_length_reference :
  length (all_losses (toy_train epochs_reference epochs_lbfgs_reference 0))
  <> (epochs_reference + epochs_lbfgs_reference)%nat.
Proof.
  unfold toy_train.
  rewrite (proj2 (train_records toy_loss (fun _ _ => tt) (fun _ s => (tt, s))
                    (fun p _ => S p) (fun p _ => S p) toy_choice toy_colloc
                    epochs_reference epochs_lbfgs_reference 1 (init_state tt 0%nat 0%nat))).
  change (all_losses (init_state tt 0%nat 0%nat)) with (@nil spec_float).
  generalize epochs_reference, epochs_lbfgs_reference. intros a b.
  change (length (@nil spec_float)) with 0%nat. lia.
Qed.

(** One Adam epoch and one L-BFGS epoch are declared; four are run, and the
    index 1 is recorded twice. *)
Lemma toy_epochs : all_epochs (toy_train 1 1 0) = [0; 1; 1; 2]%nat.
Proof. reflexivity. Qed.

(** ** The batch draws *)

Section Draws.
Context {Params OptState Grads Updates Point Generator : Type}.
Variable loss_fun_jit : Params -> list Point -> spec_float.
Variable grad_loss_fun : Params -> list Point -> Grads.
Variable optimizer_update : Grads -> OptState -> Updates * OptState.
Variable apply_updates : Params -> Updates -> Params.
Variable lbfgs_run : Params -> list Point -> Params.
Variable choice : Generator -> nat -> nat -> list nat * Generator.
Variable colloc : list Point.
Variables epochs epochs_lbfgs batch_size : nat.

(** The first loss recorded is the loss of the initial parameters on the batch
  that the generator's initial state selects. *)
Lemma first_loss_from_generator (opt_state0 : OptState) (params0 : Params)
  (g : Generator) :
all_losses (train loss_fun_jit grad_loss_fun optimizer_update apply_updates
              lbfgs_run choice colloc epochs epochs_lbfgs batch_size
              (init_state opt_state0 params0 g)) !! 0%nat
= Some (loss_fun_jit params0
          (take_rows colloc (choice g (length colloc) batch_size).1)).
Proof.
unfold train, lbfgs_phase, adam_phase.
assert (forall (step : TrainState Params OptState Generator -> nat -> _) es st l,
          (forall st e, exists e', tracker_step st (step st e) e') ->
          all_losses st !! 0%nat = Some l ->
          all_losses (foldl step st es) !! 0%nat = Some l) as Hkeep.
{ intros step es. induction es as [|e es IH]; intros st l Hstep Hl; [done|].
  simpl. apply IH; [done|]. destruct (Hstep st e) as (e' & cur & -> & _).
  by apply lookup_app_l_Some. }
apply Hkeep.
{ intros st e. eexists. apply lbfgs_epoch_tracker. }
replace (epochs + 1)%nat with (S epochs) by lia. simpl.
apply Hkeep.
{ intros st e. eexists. apply adam_epoch_tracker. }
unfold adam_epoch, update, init_state. simpl.
destruct (choice g (length colloc) batch_size) as [idx g'].
destruct (optimizer_update _ _) as [updates os].
by destruct (SFltb _ _).
Qed.
End Draws.

(** C8 on a small run: the initial parameters, the collocation points, the
    epoch counts and every key the script sets are the same; the two runs
    start from different states of the generator behind [np.random.choice],
    which the script never seeds, and record different losses. *)
Theorem training_depends_on_generator :
  all_losses (toy_train 1 1 0) <> all_losses (toy_train 1 1 1).
Proof. vm_compute. discriminate. Qed.

(** * Further properties of the code *)

(** ** Forward model: shapes, failures and batching *)

Lemma mapM_app {A B : Type} (f : A -> option B) (l1 l2 : list A) :
  mapM f (l1 ++ l2) = k1 ← mapM f l1; k2 ← mapM f l2; Some (k1 ++ k2).
Proof.
  induction l1 as [|a l1 IH]; simpl app.
  - rewrite (mapM_cons f) || idtac. simpl. by destruct (mapM f l2).
  - rewrite !mapM_cons, IH. destruct (f a) as [b|]; [|done].
    cbv beta iota delta [mbind option_bind].
    destruct (mapM f l1) as [k1|]; [|done].
    destruct (mapM f l2) as [k2|]; done.
Qed.

Lemma net_rows_same_width (params : list Layer) (X U : mat) (n : nat) :
  Forall (fun r => length r = n) X ->
  mapM (net_row params) X = Some U ->
  exists m, Forall (fun row => length row = m) U.
Proof.
  intros HX HU. apply mapM_Some_1 in HU.
  destruct HU as [|r0 o0 X U Ho0 HXU]; [by exists 0%nat|].
  exists (length o0). constructor; [done|].
  apply Forall_cons in HX as [Hr0 HX].
  induction HXU as [|r o X U Ho _ IH]; [done|].
  apply Forall_cons in HX as [Hr HX].
  constructor; [|by apply IH].
  destruct (net_row_shape params r0 r o0) as (o' & Ho' & Hlen); [congruence|done|].
  congruence.
Qed.

(** The network returns one row per row of the batch, all of one width, and
    only for two columns of the same height. *)
Theorem neural_net_batch_shape (params : list Layer) (x y : col) (U : mat) :
  neural_net params x y = Some U ->
  length y = length x /\ length U = length x /\
  exists m, Forall (fun row => length row = m) U.
Proof.
  unfold neural_net, concatenate1. intros H.
  destruct (decide (length x = length y)) as [Hlen|]; [|done].
  cbv beta iota delta [mbind option_bind] in H.
  destruct params as [|layer rest]; [done|].
  rewrite neural_net_layers_rows in H by done.
  split; [done|]. split.
  - apply length_mapM in H. rewrite <- H, length_zip_with. lia.
  - eapply (net_rows_same_width _ _ _ 2%nat); [|exact H].
    apply Forall_forall. intros r Hr.
    apply elem_of_lookup_zip_with in Hr as (i & a & b & -> & _). done.
Qed.

Lemma neural_net_batch_shape_witness :
  neural_net demo_params [0; 1] [7; 7]
  = Some [[tanh (0 * 1 + (7 * 0 + 0) + 0) * 2 +
             (tanh (0 * 0 + (7 * 1 + 0) + 0) * 3 + 0) + 5];
          [tanh (1 * 1 + (7 * 0 + 0) + 0) * 2 +
             (tanh (1 * 0 + (7 * 1 + 0) + 0) * 3 + 0) + 5]] /\
  length [7; 7] = length [0; 1] /\
  length [[tanh (0 * 1 + (7 * 0 + 0) + 0) * 2 +
             (tanh (0 * 0 + (7 * 1 + 0) + 0) * 3 + 0) + 5];
          [tanh (1 * 1 + (7 * 0 + 0) + 0) * 2 +
             (tanh (1 * 0 + (7 * 1 + 0) + 0) * 3 + 0) + 5]] = length [0; 1] /\
  exists m, Forall (fun row => length row = m)
              [[tanh (0 * 1 + (7 * 0 + 0) + 0) * 2 +
                  (tanh (0 * 0 + (7 * 1 + 0) + 0) * 3 + 0) + 5];
               [tanh (1 * 1 + (7 * 0 + 0) + 0) * 2 +
                  (tanh (1 * 0 + (7 * 1 + 0) + 0) * 3 + 0) + 5]].
Proof.
  split; [reflexivity|].
  apply (neural_net_batch_shape demo_params [0; 1] [7; 7]). reflexivity.
Defined.

(** Whether the constrained model raises is decided by the heights of the two
    columns and the shapes in the ParameterSet, never by the coordinates. *)
Theorem forward_failure_by_shape (params : list Layer) (x t x' t' : col) :
  length x' = length x -> length t' = length t ->
  neural_net_with_hard_constraint params x t = None <->
  neural_net_with_hard_constraint params x' t' = None.
Proof.
  intros Hx Ht.
  assert (forall a b a' b', length a' = length a -> length b' = length b ->
            neural_net_with_hard_constraint params a b = None ->
            neural_net_with_hard_constraint params a' b' = None) as Hone.
  { intros a b a' b' Ha Hb Hn.
    destruct (neural_net_with_hard_constraint params a' b') as [U'|] eqn:HU'; [|done].
    destruct (hard_constraint_Some _ _ _ _ HU') as [_ Hlen].
    destruct (hard_constraint_same_shape params a' b' U' a b HU') as [U HU];
      [congruence..|]. congruence. }
  split; apply Hone; done.
Qed.

Lemma forward_failure_by_shape_witness :
  length [3; 4] = length [0; 1] /\ length [5; 6] = length [7; 7] /\
  (neural_net_with_hard_constraint demo_params [0; 1] [7; 7] = None <->
   neural_net_with_hard_constraint demo_params [3; 4] [5; 6] = None).
Proof.
  split; [reflexivity|]. split; [reflexivity|].
  apply (forward_failure_by_shape demo_params [0; 1] [7; 7] [3; 4] [5; 6]); reflexivity.
Defined.

(** Evaluating a batch in two pieces and stacking the results is evaluating
    it in one call. *)
Theorem hard_constraint_app (params : list Layer) (x1 x2 t1 t2 : col) :
  length x1 = length t1 ->
  neural_net_with_hard_constraint params (x1 ++ x2) (t1 ++ t2)
  = U1 ← neural_net_with_hard_constraint params x1 t1;
    U2 ← neural_net_with_hard_constraint params x2 t2;
    Some (U1 ++ U2).
Proof.
  intros Hlen1.
  destruct (decide (params = [])) as [->|Hne].
  { unfold neural_net_with_hard_constraint. by rewrite !neural_net_None_nil. }
  destruct (decide (length x2 = length t2)) as [Hlen2|Hlen2].
  - rewrite !hard_constraint_rows by (done || rewrite !length_app; lia).
    rewrite (zip_with_app pair x1 x2 t1 t2 Hlen1). apply mapM_app.
  - assert (neural_net_with_hard_constraint params x2 t2 = None) as ->.
    { destruct (neural_net_with_hard_constraint params x2 t2) eqn:H; [|done].
      by apply hard_constraint_Some in H as [_ ?]. }
    assert (neural_net_with_hard_constraint params (x1 ++ x2) (t1 ++ t2) = None) as ->.
    { destruct (neural_net_with_hard_constraint params (x1 ++ x2) _) eqn:H; [|done].
      apply hard_constraint_Some in H as [_ H]. rewrite !length_app in H. lia. }
    by destruct (neural_net_with_hard_constraint params x1 t1).
Qed.

Lemma hard_constraint_app_witness :
  length [0] = length [7] /\
  neural_net_with_hard_constraint demo_params ([0] ++ [1]) ([7] ++ [7])
  = U1 ← neural_net_with_hard_constraint demo_params [0] [7];
    U2 ← neural_net_with_hard_constraint demo_params [1] [7];
    Some (U1 ++ U2).
Proof.
  split; [reflexivity|].
  apply (hard_constraint_app demo_params [0] [1] [7] [7]). reflexivity.
Defined.

(** At every position of the batch where x = 1 the constrained output is
    the output of the network itself: the hard constraint fixes the left
    boundary only, and leaves the right boundary to the training. *)
Theorem hard_constraint_right_boundary (params : list Layer) (x t : col)
    (U : mat) (i : nat) :
  neural_net_with_hard_constraint params x t = Some U ->
  x !! i = Some 1 ->
  exists base_nn_output,
    neural_net params x t = Some base_nn_output /\
    U !! i = base_nn_output !! i.
Proof.
  unfold neural_net_with_hard_constraint. intros HU Hx.
  destruct (neural_net params x t) as [Bn|]; [|done].
  exists Bn. split; [done|]. simpl in HU. injection HU as <-.
  rewrite bcast_col_fused, lookup_zip_with, Hx.
  destruct (Bn !! i) as [row|]; [|done]. simpl. f_equal.
  rewrite <- (list_fmap_id row) at 2. apply list_fmap_ext.
  intros _ b _. simpl. ring.
Qed.

Lemma hard_constraint_right_boundary_witness :
  neural_net_with_hard_constraint demo_params [0; 1] [7; 7] = Some demo_output /\
  [0; 1] !! 1%nat = Some 1 /\
  exists base_nn_output,
    neural_net demo_params [0; 1] [7; 7] = Some base_nn_output /\
    demo_output !! 1%nat = base_nn_output !! 1%nat.
Proof.
  split; [reflexivity|]. split; [reflexivity|].
  apply (hard_constraint_right_boundary demo_params [0; 1] [7; 7] demo_output 1);
    reflexivity.
Defined.
(** ** Parameter initialisation and the forward model together *)

Lemma length_removelast_cons {A : Type} (a : A) (l : list A) :
  length (removelast (a :: l)) = length l.
Proof.
  revert a. induction l as [|b l IH]; intros a; [done|].
  change (removelast (a :: b :: l)) with (a :: removelast (b :: l)).
  change (length (a :: removelast (b :: l))) with (S (length (removelast (b :: l)))).
  by rewrite IH.
Qed.

Section InitShapes.
Context {Key : Type}.
Variable PRNGKey : nat -> Key.
Variable split : Key -> nat -> list Key.
Variable uniform2 : Key -> nat -> nat -> mat.
Variable uniform1 : Key -> nat -> list R.

(** [jax.random.split(key, num)] returns [num] keys and
    [jax.random.uniform(key, shape=...)] an array of that shape. *)
Hypothesis split_length : forall key n, length (split key n) = n.
Hypothesis uniform2_shape :
  forall key n m, length (uniform2 key n m) = n /\
                  Forall (fun row => length row = m) (uniform2 key n m).
Hypothesis uniform1_shape : forall key n, length (uniform1 key n) = n.

Lemma init_layer_affine (key : Key) (n_in n_out : nat) (r : list R) :
  (0 < n_in)%nat -> length r = n_in ->
  exists o, affine_row r (init_layer uniform2 uniform1 key n_in n_out) = Some o /\
            length o = n_out.
Proof.
  intros Hpos Hr. unfold affine_row, init_layer, vecmat. simpl.
  destruct (uniform2_shape key n_in n_out) as [Hrows Hcols].
  rewrite decide_True by (by rewrite length_fmap, Hrows).
  assert (ncols ((fun row : list R =>
                    (fun v => - (1 / sqrt (INR n_in))
                              + (1 / sqrt (INR n_in) - - (1 / sqrt (INR n_in))) * v)
                    <$> row) <$> uniform2 key n_in n_out) = n_out) as Hn.
  { revert Hrows Hcols.
    destruct (uniform2 key n_in n_out) as [|row rows]; intros Hrows Hcols;
      simpl in Hrows |- *; [exfalso; clear -Hpos Hrows; lia|].
    apply Forall_cons in Hcols as [Hrow _]. by rewrite length_fmap. }
  rewrite Hn. simpl. unfold broadcast.
  rewrite decide_True by (by rewrite length_fmap, length_seq, uniform1_shape).
  eexists. split; [done|].
  rewrite length_zip_with, length_fmap, length_seq, uniform1_shape. lia.
Qed.

Lemma init_layers_accepted (keys : list Key) (n_in : nat) (widths : list nat)
    (r : list R) :
  widths <> [] -> Forall (fun n => 0 < n)%nat (n_in :: widths) ->
  length keys = length widths -> length r = n_in ->
  exists o,
    net_row (zip_with (fun key '(a, b) => init_layer uniform2 uniform1 key a b)
               keys (zip (removelast (n_in :: widths)) (tail (n_in :: widths)))) r
    = Some o /\
    last widths = Some (length o).
Proof.
  revert keys n_in r. induction widths as [|w widths IH];
    intros keys n_in r Hne Hpos Hkeys Hr; [done|].
  destruct keys as [|key keys]; [done|].
  apply Forall_cons in Hpos as [Hn Hpos].
  destruct (init_layer_affine key n_in w r Hn Hr) as (o & Ho & Hlen).
  destruct widths as [|w' widths'].
  - destruct keys; [|done]. simpl. exists o. by rewrite Ho, Hlen.
  - simpl in Hkeys. destruct keys as [|key' keys']; [done|].
    destruct (IH (key' :: keys') w (tanh <$> o)) as (o' & Ho' & Hlast);
      [done|done|clear -Hkeys; simpl in *; lia|by rewrite length_fmap|].
    exists o'. split; [|by rewrite last_cons_cons].
    change (removelast (n_in :: w :: w' :: widths'))
      with (n_in :: removelast (w :: w' :: widths')).
    change (tail (n_in :: w :: w' :: widths')) with (w :: tail (w :: w' :: widths')).
    change (removelast (w :: w' :: widths')) with (w :: removelast (w' :: widths')) in *.
    simpl zip_with in *.
    rewrite net_row_cons, Ho. exact Ho'.
Qed.

(** For a list of positive widths that starts with the 2 inputs and has at
    least one more entry, [init_params] returns one Layer per pair of
    consecutive widths, and [neural_net] accepts these on every batch of two
    columns of one height, returning rows of the last width. *)
Theorem init_params_accepted (widths : list nat) (x y : col) :
  widths <> [] -> Forall (fun n => 0 < n)%nat widths -> length x = length y ->
  exists params U m,
    init_params PRNGKey split uniform2 uniform1 (2%nat :: widths) = Some params /\
    length params = length widths /\
    neural_net params x y = Some U /\
    last widths = Some m /\ length U = length x /\
    Forall (fun row => length row = m) U.
Proof.
  intros Hne Hpos Hlen.
  set (keys := split (PRNGKey 0) (length (2%nat :: widths) - 1)).
  set (params := zip_with (fun key '(a, b) => init_layer uniform2 uniform1 key a b)
                   keys (zip (removelast (2%nat :: widths)) (tail (2%nat :: widths)))).
  assert (length keys = length widths) as Hkeys.
  { unfold keys. rewrite split_length. simpl. lia. }
  assert (length params = length widths) as Hparams.
  { unfold params. rewrite length_zip_with, length_zip, Hkeys. simpl tail.
    rewrite length_removelast_cons. clear. lia. }
  assert (params <> []) as Hpne by (destruct params, widths; done).
  assert (exists m, last widths = Some m /\
            forall a b, exists o, net_row params [a; b] = Some o /\ length o = m)
    as (m & Hm & Hrow).
  { destruct (init_layers_accepted keys 2 widths [0; 0]) as (o0 & Ho0 & Hl0);
      [done|constructor; [apply Nat.lt_0_succ|exact Hpos]|done|done|].
    exists (length o0). split; [done|]. intros a b.
    destruct (init_layers_accepted keys 2 widths [a; b]) as (o & Ho & Hl);
      [done|constructor; [apply Nat.lt_0_succ|exact Hpos]|done|done|].
    exists o. split; [done|]. congruence. }
  assert (neural_net params x y
          = Some ((fun p : R * R => default [] (net_row params [p.1; p.2])) <$> zip x y))
    as HU.
  { unfold neural_net, concatenate1. rewrite decide_True by done.
    cbv beta iota delta [mbind option_bind].
    rewrite neural_net_layers_rows, zip_with_zip, mapM_fmap_l by done.
    erewrite (mapM_ext _ (fun p : R * R => net_row params [p.1; p.2])); [|by intros []].
    apply mapM_total. apply Forall_forall. intros [a b] _. simpl.
    destruct (Hrow a b) as (o & -> & _). done. }
  exists params, ((fun p : R * R => default [] (net_row params [p.1; p.2])) <$> zip x y), m.
  split; [done|]. split; [done|]. split; [done|]. split; [done|]. split.
  - rewrite length_fmap, length_zip. lia.
  - apply Forall_fmap, Forall_forall. intros [a b] _. simpl.
    destruct (Hrow a b) as (o & -> & Ho). done.
Qed.

(** [init_params] raises on an empty list of widths; on a list with a single
    width it returns no Layer at all, and [neural_net] raises on that result
    whatever the batch. *)
Theorem init_params_too_short (n : nat) (x y : col) :
  init_params PRNGKey split uniform2 uniform1 [] = None /\
  init_params PRNGKey split uniform2 uniform1 [n] = Some [] /\
  (init_params PRNGKey split uniform2 uniform1 [n]
     ≫= fun params => neural_net params x y) = None.
Proof.
  split; [done|].
  assert (init_params PRNGKey split uniform2 uniform1 [n] = Some []) as H.
  { unfold init_params. simpl. by rewrite zip_with_nil_r. }
  split; [done|]. rewrite H. simpl. apply neural_net_None_nil.
Qed.
End InitShapes.

Lemma init_params_accepted_witness :
  (forall key n, length (const_split key n) = n) /\
  (forall key n m, length (const_uniform2 key n m) = n /\
                   Forall (fun row => length row = m) (const_uniform2 key n m)) /\
  (forall key n, length (const_uniform1 key n) = n) /\
  [3; 1]%nat <> [] /\ Forall (fun n => 0 < n)%nat [3; 1]%nat /\
  length [0; 1] = length [7; 7] /\
  exists params U m,
    init_params (fun seed => seed) const_split const_uniform2 const_uniform1
      (2%nat :: [3; 1]%nat) = Some params /\
    length params = length [3; 1]%nat /\
    neural_net params [0; 1] [7; 7] = Some U /\
    last [3; 1]%nat = Some m /\ length U = length [0; 1] /\
    Forall (fun row => length row = m) U.
Proof.
  assert (forall key n, length (const_split key n) = n) as H1.
  { intros key n. apply length_replicate. }
  assert (forall key n m, length (const_uniform2 key n m) = n /\
            Forall (fun row => length row = m) (const_uniform2 key n m)) as H2.
  { intros key n m. split; [apply length_replicate|].
    apply Forall_replicate, length_replicate. }
  assert (forall key n, length (const_uniform1 key n) = n) as H3.
  { intros key n. apply length_replicate. }
  assert (Forall (fun n => 0 < n)%nat [3; 1]%nat) as H4.
  { repeat constructor. }
  split; [exact H1|]. split; [exact H2|]. split; [exact H3|].
  split; [discriminate|]. split; [exact H4|]. split; [reflexivity|].
  apply (init_params_accepted (fun seed => seed) const_split const_uniform2
           const_uniform1 H1 H2 H3 [3; 1]%nat [0; 1] [7; 7]);
    [discriminate|exact H4|reflexivity].
Defined.

(** ** Reference solution *)

Lemma math_sqrt_pos (a : R) : 0 < a -> math_sqrt a = Some (sqrt a) /\ 0 < sqrt a.
Proof.
  intros Ha. unfold math_sqrt. destruct (Rlt_dec a 0) as [Hneg|_]; [lra|].
  split; [done|]. by apply sqrt_lt_R0.
Qed.

Lemma math_e_power (x : R) : Rpower math_e x = exp x.
Proof. unfold Rpower, math_e. rewrite ln_exp. f_equal. lra. Qed.

Lemma analytical_sol_None (erfc : R -> R) (x t : R) :
  analytical_sol erfc x t = None -> t < 0.
Proof.
  unfold analytical_sol. destruct (Req_dec_T t 0) as [->|Hne]; [done|].
  unfold math_sqrt. destruct (Rlt_dec (1 / 10 * t) 0) as [Hneg|Hpos]; simpl; [|done].
  intros _. lra.
Qed.

(** The reference solution raises exactly at negative times: the square
    root is taken of [0.1 * t], and [t = 0] returns before it. *)
Theorem analytical_sol_raises_iff (erfc : R -> R) (x t : R) :
  analytical_sol erfc x t = None <-> t < 0.
Proof.
  unfold analytical_sol. destruct (Req_dec_T t 0) as [->|Hne].
  - split; [done|lra].
  - unfold math_sqrt. destruct (Rlt_dec (1 / 10 * t) 0) as [Hneg|Hpos]; simpl.
    + split; [lra|done].
    + split; [done|lra].
Qed.

Lemma analytical_sol_boundary_value (erfc : R -> R) (t : R) :
  (forall z, erfc (- z) = 2 - erfc z) -> 0 < t -> analytical_sol erfc 0 t = Some 1.
Proof.
  intros Hrefl Ht.
  unfold analytical_sol. destruct (Req_dec_T t 0) as [->|_]; [lra|].
  destruct (math_sqrt_pos (1 / 10 * t)) as [-> Hs]; [lra|]. simpl.
  rewrite math_e_power, exp_0. f_equal.
  replace ((0 - 1 / 10 * t) / (2 * sqrt (1 / 10 * t)))
    with (- ((0 + 1 / 10 * t) / (2 * sqrt (1 / 10 * t)))) by (field; lra).
  rewrite Hrefl. lra.
Qed.

Lemma analytical_sol_initial (erfc : R -> R) (x : R) : analytical_sol erfc x 0 = Some 0.
Proof. unfold analytical_sol. destruct (Req_dec_T 0 0) as [_|Hne]; [done|lra]. Qed.

(** With a complementary error function that has the reflection
    [erfc (-z) = 2 - erfc z], the reference solution is 1 on the left
    boundary at every positive time, and 0 there at time 0. *)
Theorem analytical_sol_left_boundary (erfc : R -> R) (t : R) :
  (forall z, erfc (- z) = 2 - erfc z) ->
  0 < t ->
  analytical_sol erfc 0 t = Some 1 /\ analytical_sol erfc 0 0 = Some 0.
Proof.
  intros Hrefl Ht. split.
  - by apply analytical_sol_boundary_value.
  - apply analytical_sol_initial.
Qed.

Lemma analytical_sol_left_boundary_witness :
  (forall z, odd_erfc (- z) = 2 - odd_erfc z) /\ 0 < 1 /\
  analytical_sol odd_erfc 0 1 = Some 1 /\ analytical_sol odd_erfc 0 0 = Some 0.
Proof.
  assert (forall z, odd_erfc (- z) = 2 - odd_erfc z) as H.
  { intros z. unfold odd_erfc. lra. }
  split; [exact H|]. split; [lra|].
  apply (analytical_sol_left_boundary odd_erfc 1 H). lra.
Defined.

(** ** Evaluation on the regular grid *)

Lemma loop_as_zip {B : Type}
    (F : col -> col -> option R -> option R -> option B) (X T : col) :
  length X = length T ->
  mapM (fun i => F (slice1 X i) (slice1 T i) (X !! i) (T !! i)) (seq 0 (length X))
  = mapM (fun p => F [p.1] [p.2] (Some p.1) (Some p.2)) (zip X T).
Proof.
  revert T. induction X as [|a X IH]; intros [|b T] Hlen; try done.
  injection Hlen as Hlen.
  change (seq 0 (length (a :: X))) with (0%nat :: seq 1 (length X)).
  rewrite <- fmap_S_seq, mapM_cons, mapM_fmap_l.
  change (zip (a :: X) (b :: T)) with ((a, b) :: zip X T).
  rewrite mapM_cons, <- (IH T Hlen). done.
Qed.

Lemma meshgrid_zip (xs ts : list R) :
  zip (flatten_col (meshgrid xs ts).1) (flatten_col (meshgrid xs ts).2)
  = grid_points xs ts.
Proof.
  unfold flatten_col, meshgrid, grid_points. simpl.
  induction ts as [|t ts IH]; [done|].
  rewrite !fmap_cons, !concat_cons.
  rewrite (zip_with_app pair xs _ ((fun _ => t) <$> xs) _) by (by rewrite length_fmap).
  rewrite IH. f_equal.
  rewrite zip_with_fmap_r. clear. induction xs as [|x xs IHx]; [done|].
  simpl. by rewrite IHx.
Qed.

Lemma meshgrid_lengths (xs ts : list R) :
  length (flatten_col (meshgrid xs ts).1) = (length ts * length xs)%nat /\
  length (flatten_col (meshgrid xs ts).2) = (length ts * length xs)%nat.
Proof.
  unfold flatten_col, meshgrid. simpl.
  induction ts as [|t ts [IH1 IH2]]; [done|].
  rewrite !fmap_cons, !concat_cons, !length_app, IH1, IH2, length_fmap.
  simpl. done.
Qed.

Lemma length_grid_points (xs ts : list R) :
  length (grid_points xs ts) = (length ts * length xs)%nat.
Proof.
  rewrite <- meshgrid_zip, length_zip_with.
  destruct (meshgrid_lengths xs ts) as [-> ->]. lia.
Qed.

Lemma elem_of_grid_points (xs ts : list R) (p : R * R) :
  p ∈ grid_points xs ts -> p.1 ∈ xs /\ p.2 ∈ ts.
Proof.
  unfold grid_points. induction ts as [|t ts IH]; [by intros ?%elem_of_nil|].
  rewrite fmap_cons, concat_cons, elem_of_app. intros [Hp|Hp].
  - apply list_elem_of_fmap in Hp as (x & -> & Hx). split; [done|by left].
  - destruct (IH Hp). split; [done|by right].
Qed.

(** The loop, one grid coordinate at a time. *)
Lemma evaluation_points (erfc : R -> R) (best_params : list Layer) (xs ts : list R) :
  evaluation erfc best_params xs ts
  = rows ← mapM (evaluation_point erfc best_params) (grid_points xs ts);
    Some (rows.*1.*1, rows.*1.*2, rows.*2).
Proof.
  unfold evaluation.
  change (meshgrid xs ts) with ((meshgrid xs ts).1, (meshgrid xs ts).2).
  cbv beta iota zeta.
  destruct (meshgrid_lengths xs ts) as [HX HT].
  rewrite <- meshgrid_zip.
  assert (mapM (evaluation_point erfc best_params)
            (zip (flatten_col (meshgrid xs ts).1) (flatten_col (meshgrid xs ts).2))
          = mapM (fun i =>
              pred ← u_trained best_params
                       (slice1 (flatten_col (meshgrid xs ts).1) i)
                       (slice1 (flatten_col (meshgrid xs ts).2) i) ≫= item00;
              x ← flatten_col (meshgrid xs ts).1 !! i;
              t ← flatten_col (meshgrid xs ts).2 !! i;
              act ← analytical_sol erfc x t;
              Some (pred, act, Rabs (act - pred)))
            (seq 0 (length (flatten_col (meshgrid xs ts).1)))) as ->; [|done].
  symmetry.
  exact (loop_as_zip (fun sx st ox ot =>
     pred ← u_trained best_params sx st ≫= item00;
     x ← ox; t ← ot; act ← analytical_sol erfc x t;
     Some (pred, act, Rabs (act - pred)))
     (flatten_col (meshgrid xs ts).1) (flatten_col (meshgrid xs ts).2)
     (eq_trans HX (eq_sym HT))).
Qed.

(** The prediction at one coordinate: the first entry of the constrained
    output row. *)
Lemma point_prediction (params : list Layer) (x t : R) :
  u_trained params [x] [t] ≫= item00 = u_row params x t ≫= fun row => row !! 0%nat.
Proof.
  unfold u_trained. destruct params as [|layer rest].
  - unfold neural_net_with_hard_constraint. by rewrite neural_net_None_nil.
  - rewrite hard_constraint_rows by done.
    change (zip [x] [t]) with [(x, t)]. rewrite mapM_cons. simpl.
    by destruct (u_row (layer :: rest) x t).
Qed.

(** A ParameterSet that the network accepts on one coordinate, with at
    least one output, gives a prediction at every coordinate. *)
Lemma accepted_prediction (params : list Layer) (x0 y0 v : R) (row : list R)
    (x t : R) :
  neural_net params [x0] [y0] = Some [v :: row] ->
  exists b, u_trained params [x] [t] ≫= item00 = Some (b * x + (1 - x)).
Proof.
  intros Hacc. rewrite point_prediction. unfold u_row.
  assert (net_row params [x0; y0] = Some (v :: row)) as Hrow.
  { unfold neural_net, concatenate1 in Hacc. simpl in Hacc.
    destruct params as [|layer rest]; [done|].
    rewrite neural_net_layers_rows in Hacc by done.
    rewrite mapM_cons in Hacc.
    destruct (net_row (layer :: rest) [x0; y0]) as [o|]; [|done].
    simpl in Hacc. congruence. }
  destruct (net_row_shape params [x0; y0] [x; t] _ eq_refl Hrow) as (o & -> & Hlen).
  destruct o as [|b o]; [done|]. exists b. done.
Qed.

Lemma evaluation_point_Some (erfc : R -> R) (params : list Layer)
    (x0 y0 v : R) (row : list R) (p : R * R) :
  neural_net params [x0] [y0] = Some [v :: row] ->
  0 <= p.2 ->
  exists b act,
    evaluation_point erfc params p
    = Some (b * p.1 + (1 - p.1), act, Rabs (act - (b * p.1 + (1 - p.1)))) /\
    analytical_sol erfc p.1 p.2 = Some act.
Proof.
  intros Hacc Ht. unfold evaluation_point.
  destruct (accepted_prediction params x0 y0 v row p.1 p.2 Hacc) as [b ->].
  destruct (analytical_sol erfc p.1 p.2) as [act|] eqn:Hact.
  - exists b, act. done.
  - apply analytical_sol_None in Hact. lra.
Qed.

Lemma evaluation_point_rows (erfc : R -> R) (params : list Layer) (p : R * R) :
  evaluation_point erfc params p
  = pred ← (u_row params p.1 p.2 ≫= fun row => row !! 0%nat);
    act ← analytical_sol erfc p.1 p.2;
    Some (pred, act, Rabs (act - pred)).
Proof. unfold evaluation_point. by rewrite point_prediction. Qed.

Lemma evaluation_rows_split (erfc : R -> R) (params : list Layer)
    (l : list (R * R)) (rows : list (R * R * R)) :
  mapM (evaluation_point erfc params) l = Some rows ->
  exists U,
    mapM (fun p => u_row params p.1 p.2) l = Some U /\
    mapM (fun row : list R => row !! 0%nat) U = Some rows.*1.*1 /\
    mapM (fun p => analytical_sol erfc p.1 p.2) l = Some rows.*1.*2 /\
    rows.*2 = zip_with (fun a p => Rabs (a - p)) rows.*1.*2 rows.*1.*1.
Proof.
  revert rows. induction l as [|p l IH]; intros rows Hrows.
  - injection Hrows as <-. by exists [].
  - rewrite mapM_cons, evaluation_point_rows in Hrows.
    destruct (u_row params p.1 p.2) as [row|] eqn:Hrow; [|done].
    cbv beta iota delta [mbind option_bind] in Hrows.
    destruct (row !! 0%nat) as [pred|] eqn:Hpred; [|done].
    destruct (analytical_sol erfc p.1 p.2) as [act|] eqn:Hact; [|done].
    destruct (mapM (evaluation_point erfc params) l) as [rows'|]; [|done].
    injection Hrows as <-.
    destruct (IH rows' eq_refl) as (U & HU & Hp & Ha & He).
    exists (row :: U). rewrite !mapM_cons, Hrow, HU, Hact, Ha, Hpred, Hp.
    rewrite !fmap_cons. simpl. rewrite <- He. done.
Qed.

Lemma evaluation_rows (erfc : R -> R) (params : list Layer)
    (x0 y0 v : R) (row : list R) (xs ts : list R) :
  neural_net params [x0] [y0] = Some [v :: row] ->
  Forall (fun t => 0 <= t) ts ->
  exists rows,
    mapM (evaluation_point erfc params) (grid_points xs ts) = Some rows /\
    length rows = (length ts * length xs)%nat.
Proof.
  intros Hacc Hts.
  destruct (mapM (evaluation_point erfc params) (grid_points xs ts))
    as [rows|] eqn:Hrows.
  - exists rows. split; [done|].
    apply length_mapM in Hrows. by rewrite <- Hrows, length_grid_points.
  - apply mapM_None_1 in Hrows. apply Exists_exists in Hrows as (p & Hp & Hnone).
    apply elem_of_grid_points in Hp as [_ Hp].
    rewrite Forall_forall in Hts.
    destruct (evaluation_point_Some erfc params x0 y0 v row p Hacc (Hts _ Hp))
      as (b & act & Heq & _).
    by rewrite Heq in Hnone.
Qed.




(** ** Error metrics *)

Lemma foldl_Rmax_ge (a : R) (l : list R) :
  a <= foldl Rmax a l /\ Forall (fun v => v <= foldl Rmax a l) l.
Proof.
  revert a. induction l as [|b l IH]; intros a; simpl.
  - split; [lra|constructor].
  - destruct (IH (Rmax a b)) as [H1 H2]. split; [|constructor; [|done]].
    + pose proof (Rmax_l a b). lra.
    + pose proof (Rmax_r a b). lra.
Qed.

Lemma np_max_ge (l : list R) (m v : R) :
  np_max l = Some m -> v ∈ l -> v <= m.
Proof.
  destruct l as [|a l]; [done|]. simpl. intros [= <-] Hv.
  destruct (foldl_Rmax_ge a l) as [Ha Hl].
  apply elem_of_cons in Hv as [->|Hv]; [done|].
  rewrite Forall_forall in Hl. by apply Hl.
Qed.







(** ** The error at the corner of the grid *)

Lemma linspace_head (a b : R) (n : nat) :
  exists rest, linspace a b (S n) = a :: rest.
Proof.
  unfold linspace. rewrite <- cons_seq, fmap_cons. eexists. f_equal.
  simpl. ring.
Qed.

Lemma length_linspace (a b : R) (n : nat) : length (linspace a b n) = n.
Proof. unfold linspace. by rewrite length_fmap, length_seq. Qed.

Lemma linspace_nonneg (a b : R) (n : nat) :
  0 <= a <= b -> Forall (fun t => 0 <= t) (linspace a b n).
Proof.
  intros Hab. unfold linspace. apply Forall_fmap, Forall_forall. intros i _.
  change (0 <= a + INR i * ((b - a) / INR (n - 1))).
  assert (0 <= / INR (n - 1)) as Hinv.
  { destruct (n - 1)%nat as [|k] eqn:Hk.
    - simpl. rewrite Rinv_0. lra.
    - apply Rlt_le, Rinv_0_lt_compat, lt_0_INR. lia. }
  pose proof (pos_INR i) as Hi.
  assert (0 <= (b - a) / INR (n - 1)) by (apply Rmult_le_pos; lra).
  assert (0 <= INR i * ((b - a) / INR (n - 1))) by (by apply Rmult_le_pos).
  lra.
Qed.

Lemma grid_points_head (x t : R) (xs ts : list R) :
  exists rest, grid_points (x :: xs) (t :: ts) = (x, t) :: rest.
Proof. unfold grid_points. rewrite !fmap_cons, concat_cons. by eexists. Qed.

(** The first grid coordinate is the corner (xmin, tmin), where the
    prediction is 1, the reference solution 0 and the error 1. *)
Lemma evaluation_corner (erfc : R -> R) (params : list Layer)
    (x0 y0 v : R) (row : list R) :
  neural_net params [x0] [y0] = Some [v :: row] ->
  exists rest rows',
    grid_points x_vis t_vis = (xmin, tmin) :: rest /\
    mapM (evaluation_point erfc params) rest = Some rows' /\
    S (length rows') = (100 * 100)%nat /\
    evaluation erfc params x_vis t_vis
    = Some (1 :: rows'.*1.*1, 0 :: rows'.*1.*2, 1 :: rows'.*2).
Proof.
  intros Hacc.
  assert (Forall (fun t => 0 <= t) t_vis) as Hts.
  { apply linspace_nonneg. unfold tmin, tmax. lra. }
  destruct (evaluation_rows erfc params x0 y0 v row x_vis t_vis Hacc Hts)
    as (rows & Hrows & Hlen).
  unfold x_vis, t_vis in Hlen. rewrite !length_linspace in Hlen.
  destruct (linspace_head xmin xmax 99) as [xr Hx].
  destruct (linspace_head tmin tmax 99) as [tr Ht].
  destruct (grid_points_head xmin tmin xr tr) as [rest Hgrid].
  assert (grid_points x_vis t_vis = (xmin, tmin) :: rest) as Hg.
  { unfold x_vis, t_vis. by rewrite Hx, Ht. }
  rewrite evaluation_points, Hrows. rewrite Hg, mapM_cons in Hrows.
  assert (0 <= (xmin, tmin).2) as H0 by (unfold tmin; simpl; lra).
  destruct (evaluation_point_Some erfc params x0 y0 v row (xmin, tmin) Hacc H0)
    as (b & act & Hpt & Hact).
  rewrite Hpt in Hrows.
  assert (act = 0) as ->.
  { unfold analytical_sol in Hact. simpl in Hact.
    destruct (Req_dec_T tmin 0) as [_|Hne]; [congruence|]. by unfold tmin in Hne. }
  destruct (mapM (evaluation_point erfc params) rest) as [rows'|] eqn:Hrest;
    [|done].
  injection Hrows as <-.
  assert (b * xmin + (1 - xmin) = 1) as Hone by (unfold xmin; ring).
  assert (Rabs (0 - 1) = 1) as Habs.
  { rewrite Rminus_0_l, Rabs_Ropp. apply Rabs_R1. }
  exists rest, rows'. split; [done|]. split; [done|]. split; [exact Hlen|].
  cbv beta iota delta [mbind option_bind]. rewrite !fmap_cons. cbn [fst snd].
  by rewrite Hone, Habs.
Qed.

(** In exact arithmetic and whatever the training reached, the first grid
    coordinate is the corner (xmin, tmin): there the constrained model
    returns 1 and the reference solution returns 0.  So whenever the
    formulas of the global metrics are evaluated on the arrays of the loop,
    the maximum absolute error is at least 1 and the mean squared error at
    least 1/10000. *)
Theorem corner_error_floor (erfc : R -> R) (params : list Layer)
    (x0 y0 v : R) (row : list R) :
  neural_net params [x0] [y0] = Some [v :: row] ->
  exists C_pred C_act C_error,
    evaluation erfc params x_vis t_vis = Some (C_pred, C_act, C_error) /\
    C_pred !! 0%nat = Some 1 /\ C_act !! 0%nat = Some 0 /\
    C_error !! 0%nat = Some 1 /\
    (forall m, max_error C_pred C_act = Some m -> 1 <= m) /\
    (forall e, mse C_pred C_act = Some e -> 1 / 10000 <= e).
Proof.
  intros Hacc.
  destruct (evaluation_corner erfc params x0 y0 v row Hacc)
    as (rest & rows' & _ & _ & Hlen & Heval).
  assert (Rabs (1 - 0) = 1) as Habs'.
  { rewrite Rminus_0_r. apply Rabs_R1. }
  set (d := zip_with Rminus rows'.*1.*1 rows'.*1.*2).
  assert (length d = length rows') as Hd.
  { unfold d. rewrite length_zip_with, !length_fmap. lia. }
  exists (1 :: rows'.*1.*1), (0 :: rows'.*1.*2), (1 :: rows'.*2).
  split; [done|]. split; [done|]. split; [done|]. split; [done|].
  split.
  - intros m Hm.
    apply (np_max_ge _ _ (Rabs (1 - 0))) in Hm; [lra|].
    change (zip_with Rminus (1 :: rows'.*1.*1) (0 :: rows'.*1.*2))
      with ((1 - 0) :: d).
    rewrite fmap_cons. by left.
  - intros e He. unfold mse in He.
    change (zip_with Rminus (1 :: rows'.*1.*1) (0 :: rows'.*1.*2))
      with ((1 - 0) :: d) in He.
    rewrite fmap_cons in He. apply mean_Some in He as [_ ->].
    change (length ((1 - 0) ^ 2 :: ((fun v => v ^ 2) <$> d)))
      with (S (length ((fun v => v ^ 2) <$> d))).
    rewrite length_fmap.
    assert (INR (S (length d)) = 10000) as ->.
    { rewrite Hd, Hlen, mult_INR, (INR_IZR_INZ 100).
      change (Z.of_nat 100) with 100%Z. lra. }
    assert (0 <= Rsum ((fun v => v ^ 2) <$> d)) as Hsum.
    { apply Rsum_nonneg, Forall_fmap, Forall_forall. intros w _.
      change (0 <= w ^ 2). apply pow2_ge_0. }
    change (Rsum ((1 - 0) ^ 2 :: ((fun v => v ^ 2) <$> d)))
      with ((1 - 0) ^ 2 + Rsum ((fun v => v ^ 2) <$> d)).
    lra.
Qed.

Lemma corner_error_floor_witness :
  neural_net demo_params [0] [7]
  = Some [[tanh (0 * 1 + (7 * 0 + 0) + 0) * 2 +
             (tanh (0 * 0 + (7 * 1 + 0) + 0) * 3 + 0) + 5]] /\
  exists C_pred C_act C_error,
    evaluation odd_erfc demo_params x_vis t_vis = Some (C_pred, C_act, C_error) /\
    C_pred !! 0%nat = Some 1 /\ C_act !! 0%nat = Some 0 /\
    C_error !! 0%nat = Some 1 /\
    (forall m, max_error C_pred C_act = Some m -> 1 <= m) /\
    (forall e, mse C_pred C_act = Some e -> 1 / 10000 <= e).
Proof.
  split; [reflexivity|].
  apply (corner_error_floor odd_erfc demo_params 0 7
           (tanh (0 * 1 + (7 * 0 + 0) + 0) * 2 +
              (tanh (0 * 0 + (7 * 1 + 0) + 0) * 3 + 0) + 5) []).
  reflexivity.
Defined.

(** ** Training loop: what the stored best model is *)

Lemma SFltb_of_key (a b : spec_float) :
  not_nan a -> not_nan b -> key_lt (float_key a) (float_key b) -> SFltb a b = true.
Proof.
  unfold not_nan, SFltb, SFcompare, key_lt.
  intros Ha Hb. destruct a as [[]|[]| |[] ma ea], b as [[]|[]| |[] mb eb];
    simpl; try done; try lia.
  - destruct (Z.compare_spec ea eb); simpl.
    + rewrite Pos.compare_cont_spec. simpl.
      destruct (Pos.compare_spec ma mb); simpl; try done; lia.
    + lia.
    + done.
  - destruct (Z.compare_spec ea eb); simpl.
    + rewrite Pos.compare_cont_spec. simpl.
      destruct (Pos.compare_spec ma mb); simpl; try done; lia.
    + done.
    + lia.
Qed.

Lemma SFltb_false_leb (a b : spec_float) :
  not_nan a -> not_nan b -> SFltb a b = false -> SFleb b a = true.
Proof.
  intros Ha Hb Hlt. apply SFleb_key; [done..|].
  destruct (decide (key_lt (float_key a) (float_key b))) as [Hk|Hk].
  - by rewrite (SFltb_of_key a b Ha Hb Hk) in Hlt.
  - unfold key_lt, key_le in *. lia.
Qed.

Lemma SFltb_leb_trans (a b c : spec_float) :
  not_nan c -> SFltb a b = true -> SFleb b c = true -> SFltb a c = true.
Proof.
  intros Hc Hab Hbc. apply SFltb_key in Hab as (Ha & Hb & Hk).
  apply SFleb_key in Hbc; [|done..].
  apply SFltb_of_key; [done..|]. unfold key_lt, key_le in *. lia.
Qed.

Section SnapshotProps.
Context {Params OptState Grads Updates Point Generator : Type}.
Variable loss_fun_jit : Params -> list Point -> spec_float.
Variable grad_loss_fun : Params -> list Point -> Grads.
Variable optimizer_update : Grads -> OptState -> Updates * OptState.
Variable apply_updates : Params -> Updates -> Params.
Variable lbfgs_run : Params -> list Point -> Params.
Variable choice : Generator -> nat -> nat -> list nat * Generator.
Variable colloc : list Point.
Variables epochs epochs_lbfgs batch_size : nat.

Local Abbreviation State := (TrainState Params OptState Generator).
Local Abbreviation adam :=
  (adam_epoch loss_fun_jit grad_loss_fun optimizer_update apply_updates
     choice colloc batch_size).
Local Abbreviation lbfgs :=
  (lbfgs_epoch (OptState:=OptState) loss_fun_jit lbfgs_run choice colloc
     epochs batch_size).

(** The stored best loss is the first least entry of the record, when
    there is one below +inf. *)
Local Abbreviation first_minimum st :=
  (exists i,
     all_losses st !! i = Some (best_loss st) /\
     all_epochs st !! i = Some (best_epoch st) /\
     forall j l, (j < i)%nat -> all_losses st !! j = Some l -> not_nan l ->
       SFltb (best_loss st) l = true).

Lemma first_minimum_step (params0 : Params) (st st' : State) (e : nat) :
  tracker_step st st' e ->
  not_nan (best_loss st) ->
  length (all_losses st) = length (all_epochs st) ->
  (forall l, l ∈ all_losses st -> not_nan l -> SFleb (best_loss st) l = true) ->
  (best_loss st = float_inf /\ best_epoch st = 0%nat /\ best_params st = params0)
    \/ first_minimum st ->
  not_nan (best_loss st') /\
  length (all_losses st') = length (all_epochs st') /\
  (forall l, l ∈ all_losses st' -> not_nan l -> SFleb (best_loss st') l = true) /\
  ((best_loss st' = float_inf /\ best_epoch st' = 0%nat /\ best_params st' = params0)
     \/ first_minimum st').
Proof.
  intros (cur & Hl & He & Hbest) Hn Hlen Hmin Hfirst.
  destruct (SFltb cur (best_loss st)) eqn:Hlt.
  - destruct Hbest as (Hb & _ & Hbe).
    pose proof (SFltb_key _ _ Hlt) as (Hcur & _ & _).
    rewrite Hb, Hbe, Hl, He.
    split; [done|]. split; [rewrite !length_app; simpl; lia|]. split.
    + intros l [Hin|Hin%list_elem_of_singleton]%elem_of_app Hnl.
      * apply SFltb_leb. eapply SFltb_leb_trans; [done|exact Hlt|by apply Hmin].
      * subst l. by apply SFleb_refl.
    + right. exists (length (all_losses st)).
      split; [by rewrite lookup_app_r, Nat.sub_diag by lia|].
      split; [by rewrite Hlen, lookup_app_r, Nat.sub_diag by lia|].
      intros j l Hj Hjl Hnl. rewrite lookup_app_l in Hjl by done.
      eapply SFltb_leb_trans; [done|exact Hlt|].
      apply Hmin; [|done]. by eapply list_elem_of_lookup_2.
  - destruct Hbest as (Hb & Hbp & Hbe). rewrite Hb, Hbe, Hbp, Hl, He.
    split; [done|]. split; [rewrite !length_app; simpl; lia|]. split.
    + intros l [Hin|Hin%list_elem_of_singleton]%elem_of_app Hnl.
      * by apply Hmin.
      * subst l. by apply SFltb_false_leb.
    + destruct Hfirst as [Hun|(i & Hi & Hie & Hbefore)]; [by left|right].
      exists i. pose proof (lookup_lt_Some _ _ _ Hi) as Hlt_i.
      split; [by apply lookup_app_l_Some|].
      split; [by apply lookup_app_l_Some|].
      intros j l Hj Hjl Hnl. rewrite lookup_app_l in Hjl by lia.
      by apply (Hbefore j).
Qed.

Lemma first_minimum_foldl (params0 : Params) (step : State -> nat -> State)
    (st : State) (es : list nat) :
  descends step ->
  not_nan (best_loss st) ->
  length (all_losses st) = length (all_epochs st) ->
  (forall l, l ∈ all_losses st -> not_nan l -> SFleb (best_loss st) l = true) ->
  (best_loss st = float_inf /\ best_epoch st = 0%nat /\ best_params st = params0)
    \/ first_minimum st ->
  not_nan (best_loss (foldl step st es)) /\
  length (all_losses (foldl step st es)) = length (all_epochs (foldl step st es)) /\
  (forall l, l ∈ all_losses (foldl step st es) -> not_nan l ->
     SFleb (best_loss (foldl step st es)) l = true) /\
  ((best_loss (foldl step st es) = float_inf /\
    best_epoch (foldl step st es) = 0%nat /\
    best_params (foldl step st es) = params0)
     \/ first_minimum (foldl step st es)).
Proof.
  intros Hd. revert st. induction es as [|e es IH]; intros st Hn Hlen Hmin Hfirst.
  - done.
  - simpl. destruct (Hd st e) as [e' Hstep].
    destruct (first_minimum_step params0 st (step st e) e' Hstep Hn Hlen Hmin Hfirst)
      as (Hn' & Hlen' & Hmin' & Hfirst').
    by apply IH.
Qed.

(** After the whole run the stored best loss is at most every recorded
    loss that is a number; and either nothing was ever stored (the best
    loss is still +inf, with epoch 0 and the initial parameters), or the
    stored loss and epoch sit at one position of the LossRecord, every
    earlier recorded number being strictly larger: the first occurrence
    of the least loss. *)
Theorem best_is_first_minimum (opt_state0 : OptState) (params0 : Params)
    (g : Generator) :
  let final := train loss_fun_jit grad_loss_fun optimizer_update apply_updates
                 lbfgs_run choice colloc epochs epochs_lbfgs batch_size
                 (init_state opt_state0 params0 g) in
  (forall l, l ∈ all_losses final -> not_nan l -> SFleb (best_loss final) l = true) /\
  ((best_loss final = float_inf /\ best_epoch final = 0%nat /\
    best_params final = params0)
   \/ exists i,
        all_losses final !! i = Some (best_loss final) /\
        all_epochs final !! i = Some (best_epoch final) /\
        forall j l, (j < i)%nat -> all_losses final !! j = Some l -> not_nan l ->
          SFltb (best_loss final) l = true).
Proof.
  intros final. subst final. unfold train, lbfgs_phase, adam_phase.
  destruct (first_minimum_foldl params0 adam (init_state opt_state0 params0 g)
              (seq 0 (epochs + 1))) as (Hn & Hlen & Hmin & Hfirst).
  { intros st e. exists e. apply adam_epoch_tracker. }
  { done. }
  { done. }
  { intros l Hl. by apply elem_of_nil in Hl. }
  { by left. }
  destruct (first_minimum_foldl params0 lbfgs _ (seq 0 (epochs_lbfgs + 1))
              ltac:(intros st e; exists (e + epochs)%nat; apply lbfgs_epoch_tracker)
              Hn Hlen Hmin Hfirst) as (_ & _ & Hmin' & Hfirst').
  split; [exact Hmin'|exact Hfirst'].
Qed.

(** *** Which parameters and which loss are stored together *)

Lemma take_rows_elem (idx : list nat) :
  Forall (fun pt => pt ∈ colloc) (take_rows colloc idx).
Proof.
  unfold take_rows. apply Forall_forall. intros pt Hpt.
  apply list_elem_of_omap in Hpt as (i & _ & Hi).
  by eapply list_elem_of_lookup_2.
Qed.

Lemma foldl_invariant (P : State -> Prop) (step : State -> nat -> State)
    (es : list nat) (st : State) :
  (forall st e, e ∈ es -> P st -> P (step st e)) ->
  P st -> P (foldl step st es).
Proof.
  revert st. induction es as [|e es IH]; intros st Hstep Hst; [done|].
  simpl. apply IH.
  - intros st' e' He'. apply Hstep. by right.
  - apply Hstep; [by left|done].
Qed.

Local Abbreviation untouched params0 st :=
  (best_loss st = float_inf /\ best_params st = params0 /\ best_epoch st = 0%nat).

Local Abbreviation adam_snapshot st :=
  (exists p os batch,
     Forall (fun pt => pt ∈ colloc) batch /\
     best_loss st = loss_fun_jit p batch /\
     best_params st
     = apply_updates p (optimizer_update (grad_loss_fun p batch) os).1 /\
     le (best_epoch st) epochs).

Local Abbreviation lbfgs_snapshot st :=
  (exists p batch,
     Forall (fun pt => pt ∈ colloc) batch /\
     best_params st = lbfgs_run p batch /\
     best_loss st = loss_fun_jit (best_params st) batch /\
     le epochs (best_epoch st) /\
     le (best_epoch st) (epochs + epochs_lbfgs)).

Lemma adam_epoch_snapshot (params0 : Params) (st : State) (e : nat) :
  (e <= epochs)%nat ->
  untouched params0 st \/ adam_snapshot st ->
  untouched params0 (adam st e) \/ adam_snapshot (adam st e).
Proof.
  intros He Hst. unfold adam_epoch, update.
  destruct (choice _ _ _) as [idx g'].
  destruct (optimizer_update _ _) as [updates os] eqn:Hup.
  destruct (SFltb _ _); simpl; [|exact Hst].
  right. exists (params st), (opt_state st), (take_rows colloc idx).
  rewrite Hup. split; [apply take_rows_elem|done].
Qed.

Lemma lbfgs_epoch_snapshot (params0 : Params) (st : State) (e : nat) :
  (e <= epochs_lbfgs)%nat ->
  untouched params0 st \/ adam_snapshot st \/ lbfgs_snapshot st ->
  opt_state (lbfgs st e) = opt_state st /\
  (untouched params0 (lbfgs st e) \/ adam_snapshot (lbfgs st e)
   \/ lbfgs_snapshot (lbfgs st e)).
Proof.
  intros He Hst. unfold lbfgs_epoch, update_lbfgs.
  destruct (choice _ _ _) as [idx g'].
  destruct (SFltb _ _); simpl; [|by split].
  split; [done|]. right. right. exists (params st), (take_rows colloc idx).
  split; [apply take_rows_elem|]. split; [done|]. split; [done|].
  clear -He. lia.
Qed.

(** The stored best model after the whole run is one of three things: the
    initial parameters with loss +inf; a snapshot of the Adam loop, which
    pairs the parameters after an update step with the loss of the
    parameters before that step; or a snapshot of the L-BFGS loop, whose
    loss is the loss of the stored parameters themselves on the batch of
    that epoch.  Every batch consists of collocation points, and the
    L-BFGS loop leaves the Adam state as the Adam loop left it. *)
Theorem snapshot_provenance (opt_state0 : OptState) (params0 : Params)
    (g : Generator) :
  let mid := adam_phase loss_fun_jit grad_loss_fun optimizer_update apply_updates
               choice colloc epochs batch_size (init_state opt_state0 params0 g) in
  let final := train loss_fun_jit grad_loss_fun optimizer_update apply_updates
                 lbfgs_run choice colloc epochs epochs_lbfgs batch_size
                 (init_state opt_state0 params0 g) in
  opt_state final = opt_state mid /\
  ((best_loss final = float_inf /\ best_params final = params0 /\
    best_epoch final = 0%nat)
   \/ (exists p os batch,
         Forall (fun pt => pt ∈ colloc) batch /\
         best_loss final = loss_fun_jit p batch /\
         best_params final
         = apply_updates p (optimizer_update (grad_loss_fun p batch) os).1 /\
         (best_epoch final <= epochs)%nat)
   \/ (exists p batch,
         Forall (fun pt => pt ∈ colloc) batch /\
         best_params final = lbfgs_run p batch /\
         best_loss final = loss_fun_jit (best_params final) batch /\
         (epochs <= best_epoch final)%nat /\
         (best_epoch final <= epochs + epochs_lbfgs)%nat)).
Proof.
  intros mid final. subst mid final. unfold train, lbfgs_phase.
  set (mid := adam_phase _ _ _ _ _ _ _ _ _).
  assert (untouched params0 mid \/ adam_snapshot mid) as Hmid.
  { unfold mid, adam_phase.
    apply (foldl_invariant (fun st => untouched params0 st \/ adam_snapshot st));
      [|by left].
    intros st e He. apply adam_epoch_snapshot.
    apply elem_of_seq in He. clear -He. lia. }
  apply (foldl_invariant (fun st =>
           opt_state st = opt_state mid /\
           (untouched params0 st \/ adam_snapshot st \/ lbfgs_snapshot st))).
  - intros st e He [Hos Hst]. apply elem_of_seq in He.
    destruct (lbfgs_epoch_snapshot params0 st e) as [Hos' Hst'];
      [clear -He; lia|exact Hst|].
    split; [congruence|exact Hst'].
  - split; [done|]. destruct Hmid as [H|H]; [by left|by right; left].
Qed.

End SnapshotProps.

(** ** Collocation points *)

Section CollocationProps.
Context {Key : Type}.
Variable uniform : Key -> nat -> R -> R -> list R.
Variable beta : Key -> R -> R -> nat -> list R.

Hypothesis uniform_shape : forall key n a b, length (uniform key n a b) = n.
Hypothesis uniform_range :
  forall key n a b, a < b -> Forall (fun v => a <= v < b) (uniform key n a b).
Hypothesis beta_shape : forall key a b n, length (beta key a b n) = n.
Hypothesis beta_range :
  forall key a b n, Forall (fun v => 0 <= v <= 1) (beta key a b n).

(** With samplers that return arrays of the requested length, uniform
    draws in [minval, maxval) and beta draws in [0, 1], the collocation
    array has N_r + N_ic_extra rows, every row lies in the domain
    [xmin, xmax] x [tmin, tmax], and the last N_ic_extra rows lie on the
    initial line t = 0. *)
Theorem collocation_points_in_domain (key1 key2 key3 key4 key7 : Key) :
  exists colloc,
    collocation_points uniform beta key1 key2 key3 key4 key7 = Some colloc /\
    length colloc = (N_r + N_ic_extra)%nat /\
    Forall (fun p => xmin <= p.1 <= xmax /\ tmin <= p.2 <= tmax) colloc /\
    Forall (fun p => p.2 = 0) (drop N_r colloc).
Proof.
  unfold collocation_points, stack1. cbv zeta.
  set (xu := uniform key1 (N_r / 2) xmin xmax).
  set (tu := uniform key2 (N_r / 2) tmin tmax).
  set (xd := (fun v => v * xmax) <$> beta key3 1 9 (N_r - N_r / 2)).
  set (td := (fun v => v * tmax) <$> beta key4 1 9 (N_r - N_r / 2)).
  set (xi := uniform key7 N_ic_extra xmin xmax).
  assert (length xu = (N_r / 2)%nat) as Hxu by apply uniform_shape.
  assert (length tu = (N_r / 2)%nat) as Htu by apply uniform_shape.
  assert (length xd = (N_r - N_r / 2)%nat) as Hxd
    by (unfold xd; by rewrite length_fmap, beta_shape).
  assert (length td = (N_r - N_r / 2)%nat) as Htd
    by (unfold td; by rewrite length_fmap, beta_shape).
  assert (length xi = N_ic_extra) as Hxi by apply uniform_shape.
  assert (N_r / 2 + (N_r - N_r / 2) = N_r)%nat as Hsum by reflexivity.
  exists (zip (xu ++ xd) (tu ++ td) ++ zip xi (replicate N_ic_extra 0)).
  split.
  { by rewrite !decide_True
      by (rewrite ?length_app, ?length_replicate; congruence). }
  assert (length (zip (xu ++ xd) (tu ++ td)) = N_r) as Hlen.
  { rewrite length_zip_with, !length_app, Hxu, Htu, Hxd, Htd, Hsum.
    clear. lia. }
  assert (Forall (fun v => xmin <= v <= xmax) xu) as Rxu.
  { eapply Forall_impl; [apply uniform_range; unfold xmin, xmax; lra|].
    intros v Hv. simpl in Hv. lra. }
  assert (Forall (fun v => tmin <= v <= tmax) tu) as Rtu.
  { eapply Forall_impl; [apply uniform_range; unfold tmin, tmax; lra|].
    intros v Hv. simpl in Hv. lra. }
  assert (Forall (fun v => xmin <= v <= xmax) xi) as Rxi.
  { eapply Forall_impl; [apply uniform_range; unfold xmin, xmax; lra|].
    intros v Hv. simpl in Hv. lra. }
  assert (Forall (fun v => xmin <= v <= xmax) xd) as Rxd.
  { apply Forall_fmap. eapply Forall_impl; [apply beta_range|].
    intros v Hv. unfold xmin, xmax. simpl in *. lra. }
  assert (Forall (fun v => tmin <= v <= tmax) td) as Rtd.
  { apply Forall_fmap. eapply Forall_impl; [apply beta_range|].
    intros v Hv. unfold tmin, tmax. simpl in *. lra. }
  split; [|split].
  - rewrite length_app, Hlen, length_zip_with, Hxi, length_replicate.
    clear. lia.
  - apply Forall_app. split.
    + apply Forall_forall. intros [x t] Hp.
      apply elem_of_zip_l in Hp as Hx. apply elem_of_zip_r in Hp as Ht.
      simpl. split.
      * apply elem_of_app in Hx as [Hx|Hx];
          [exact (proj1 (Forall_forall _ _) Rxu x Hx)
          |exact (proj1 (Forall_forall _ _) Rxd x Hx)].
      * apply elem_of_app in Ht as [Ht|Ht];
          [exact (proj1 (Forall_forall _ _) Rtu t Ht)
          |exact (proj1 (Forall_forall _ _) Rtd t Ht)].
    + apply Forall_forall. intros [x t] Hp.
      apply elem_of_zip_l in Hp as Hx. apply elem_of_zip_r in Hp as Ht.
      apply elem_of_replicate in Ht as [-> _]. simpl. split.
      * exact (proj1 (Forall_forall _ _) Rxi x Hx).
      * unfold tmin, tmax. lra.
  - rewrite drop_app_length' by (symmetry; exact Hlen).
    apply Forall_forall. intros [x t] Hp. apply elem_of_zip_r in Hp.
    by apply elem_of_replicate in Hp as [-> _].
Qed.

End CollocationProps.

Lemma collocation_points_in_domain_witness :
  (forall key n a b, length (low_uniform key n a b) = n) /\
  (forall key n a b, a < b -> Forall (fun v => a <= v < b) (low_uniform key n a b)) /\
  (forall key a b n, length (half_beta key a b n) = n) /\
  (forall key a b n, Forall (fun v => 0 <= v <= 1) (half_beta key a b n)) /\
  exists colloc,
    collocation_points low_uniform half_beta 1%nat 2%nat 3%nat 4%nat 7%nat
    = Some colloc /\
    length colloc = (N_r + N_ic_extra)%nat /\
    Forall (fun p => xmin <= p.1 <= xmax /\ tmin <= p.2 <= tmax) colloc /\
    Forall (fun p => p.2 = 0) (drop N_r colloc).
Proof.
  assert (forall key n a b, length (low_uniform key n a b) = n) as H1.
  { intros key n a b. apply length_replicate. }
  assert (forall key n a b, a < b ->
            Forall (fun v => a <= v < b) (low_uniform key n a b)) as H2.
  { intros key n a b Hab. apply Forall_replicate. lra. }
  assert (forall key a b n, length (half_beta key a b n) = n) as H3.
  { intros key a b n. apply length_replicate. }
  assert (forall key a b n,
            Forall (fun v => 0 <= v <= 1) (half_beta key a b n)) as H4.
  { intros key a b n. apply Forall_replicate. lra. }
  split; [exact H1|]. split; [exact H2|]. split; [exact H3|]. split; [exact H4|].
  exact (collocation_points_in_domain low_uniform half_beta H1 H2 H3 H4
           1%nat 2%nat 3%nat 4%nat 7%nat).
Defined.

(** ** Range of the weighting schedule *)

(** On the time domain the weight of a collocation point lies between 1
    and 201, the value at the initial time; past the breakpoint it is
    below 17.2. *)
Theorem lambda_t_range (t : R) :
  tmin <= t <= tmax ->
  1 <= lambda_t t <= lambda_t tmin /\ lambda_t tmin = 201 /\
  (1/10 < t -> lambda_t t < 86/5).
Proof.
  unfold tmin, tmax. intros Ht.
  assert (lambda_t 0 = 201) as H0.
  { rewrite lambda_t_le by lra. unfold lambda_early, tmin. field. }
  rewrite H0. split; [|split; [done|]].
  - destruct (Rle_dec t (1/10)) as [Hle|Hgt].
    + rewrite lambda_t_le by done. unfold lambda_early, tmin.
      replace ((t - 0) / (1 / 10)) with (10 * t) by field. nra.
    + rewrite lambda_t_gt by lra. unfold lambda_late, tmin, tmax.
      replace ((t - 0) / (1 - 0)) with t by field. nra.
  - intros Hgt. rewrite lambda_t_gt by done. unfold lambda_late, tmin, tmax.
    replace ((t - 0) / (1 - 0)) with t by field. nra.
Qed.

Lemma lambda_t_range_witness :
  tmin <= 1/2 <= tmax /\
  1 <= lambda_t (1/2) <= lambda_t tmin /\ lambda_t tmin = 201 /\
  (1/10 < 1/2 -> lambda_t (1/2) < 86/5).
Proof.
  assert (tmin <= 1/2 <= tmax) as H by (unfold tmin, tmax; lra).
  split; [exact H|]. exact (lambda_t_range (1/2) H).
Defined.

(** ** Error metrics by region *)

Lemma region_mask_grid (x_min x_max t_min t_max : R) (xs ts : list R) :
  region_mask ((x_min, x_max), (t_min, t_max)) xs ts
  = (fun p : R * R =>
       Rgeb p.1 x_min && Rleb p.1 x_max && Rgeb p.2 t_min && Rleb p.2 t_max)
      <$> grid_points xs ts.
Proof.
  unfold region_mask.
  change (meshgrid xs ts) with ((meshgrid xs ts).1, (meshgrid xs ts).2).
  cbv beta iota. rewrite <- meshgrid_zip.
  rewrite (zip_with_zip
    (fun x t => Rgeb x x_min && Rleb x x_max && Rgeb t t_min && Rleb t t_max)).
  apply list_fmap_ext. by intros _ [x t] _.
Qed.

Lemma Rgeb_true (a b : R) : b <= a -> Rgeb a b = true.
Proof. intros H. unfold Rgeb. destruct (Rge_dec a b); [done|lra]. Qed.

Lemma Rleb_true (a b : R) : a <= b -> Rleb a b = true.
Proof. intros H. unfold Rleb. destruct (Rle_dec a b); [done|lra]. Qed.

Lemma select_cons_true (m : list bool) (a : R) (l : list R) :
  select (true :: m) (a :: l) = cons a <$> select m l.
Proof.
  unfold select. simpl length.
  destruct (decide (length m = length l)) as [Hlen|Hlen].
  - by rewrite decide_True by congruence.
  - by rewrite decide_False by congruence.
Qed.

Lemma select_length_Some (m : list bool) (l : list R) :
  length m = length l -> exists sel, select m l = Some sel.
Proof. intros Hlen. unfold select. rewrite decide_True by done. by eexists. Qed.

(** In exact arithmetic and whatever the training reached: whenever the
    metrics of a region that contains the corner (xmin, tmin) are computed
    from the errors of the loop, the maximum error of the region is at
    least 1 and its root mean squared error is the square root of its mean
    squared error; the regions Full Domain, Early Region and Left Boundary
    of the script are such regions. *)
Theorem corner_region_max_error (erfc : R -> R) (params : list Layer)
    (x0 y0 v : R) (row : list R) :
  neural_net params [x0] [y0] = Some [v :: row] ->
  exists C_pred C_act C_error,
    evaluation erfc params x_vis t_vis = Some (C_pred, C_act, C_error) /\
    (forall x_min x_max t_min t_max mse_r rmse_r max_r,
       x_min <= xmin <= x_max -> t_min <= tmin <= t_max ->
       region_metric ((x_min, x_max), (t_min, t_max)) x_vis t_vis C_error
       = Some (mse_r, rmse_r, max_r) ->
       1 <= max_r /\ rmse_r = sqrt mse_r) /\
    Forall (fun region : (R * R) * (R * R) =>
              region.1.1 <= xmin <= region.1.2 /\
              region.2.1 <= tmin <= region.2.2)
      [full_domain; early_region; left_boundary].
Proof.
  intros Hacc.
  destruct (evaluation_corner erfc params x0 y0 v row Hacc)
    as (rest & rows' & Hgrid & Hrest & Hlen & Heval).
  exists (1 :: rows'.*1.*1), (0 :: rows'.*1.*2), (1 :: rows'.*2).
  split; [exact Heval|]. split.
  - intros x_min x_max t_min t_max mse_r rmse_r max_r Hx Ht.
    unfold region_metric. rewrite region_mask_grid, Hgrid, fmap_cons.
    cbn [fst snd]. rewrite !Rgeb_true, !Rleb_true by lra.
    change (true && true && true && true) with true.
    rewrite select_cons_true.
    destruct (select_length_Some
                ((fun p : R * R => Rgeb p.1 x_min && Rleb p.1 x_max
                                   && Rgeb p.2 t_min && Rleb p.2 t_max) <$> rest)
                rows'.*2) as [sel ->].
    { rewrite !length_fmap. by apply length_mapM in Hrest. }
    change (mean ((fun e => e ^ 2) <$> 1 :: sel))
      with (Some (Rsum ((fun e => e ^ 2) <$> 1 :: sel)
                  / INR (length ((fun e => e ^ 2) <$> 1 :: sel)))).
    intros [= <- <- <-]. split; [|done].
    by destruct (foldl_Rmax_ge 1 sel) as [Hge _].
  - unfold full_domain, early_region, left_boundary, xmin, tmin.
    repeat (constructor; [simpl; lra|]). constructor.
Qed.

Lemma corner_region_max_error_witness :
  neural_net demo_params [0] [7]
  = Some [[tanh (0 * 1 + (7 * 0 + 0) + 0) * 2 +
             (tanh (0 * 0 + (7 * 1 + 0) + 0) * 3 + 0) + 5]] /\
  exists C_pred C_act C_error,
    evaluation odd_erfc demo_params x_vis t_vis = Some (C_pred, C_act, C_error) /\
    (forall x_min x_max t_min t_max mse_r rmse_r max_r,
       x_min <= xmin <= x_max -> t_min <= tmin <= t_max ->
       region_metric ((x_min, x_max), (t_min, t_max)) x_vis t_vis C_error
       = Some (mse_r, rmse_r, max_r) ->
       1 <= max_r /\ rmse_r = sqrt mse_r) /\
    Forall (fun region : (R * R) * (R * R) =>
              region.1.1 <= xmin <= region.1.2 /\
              region.2.1 <= tmin <= region.2.2)
      [full_domain; early_region; left_boundary].
Proof.
  split; [reflexivity|].
  apply (corner_region_max_error odd_erfc demo_params 0 7
           (tanh (0 * 1 + (7 * 0 + 0) + 0) * 2 +
              (tanh (0 * 0 + (7 * 1 + 0) + 0) * 3 + 0) + 5) []).
  reflexivity.
Defined.

Lemma linspace_range (a b : R) (n : nat) :
  a <= b -> Forall (fun t => a <= t <= b) (linspace a b n).
Proof.
  intros Hab. unfold linspace. apply Forall_fmap, Forall_forall. intros i Hi.
  apply elem_of_seq in Hi.
  change (a <= a + INR i * ((b - a) / INR (n - 1)) <= b).
  destruct (n - 1)%nat as [|k] eqn:Hk.
  - assert (i = 0%nat) as -> by lia. simpl. lra.
  - assert (0 < INR (S k)) as Hpos by (apply lt_0_INR; lia).
    assert (INR i <= INR (S k)) as Hi' by (apply le_INR; lia).
    pose proof (pos_INR i) as Hi0.
    assert (0 <= (b - a) / INR (S k)) as Hstep.
    { apply Rmult_le_pos; [lra|]. by apply Rlt_le, Rinv_0_lt_compat. }
    assert (INR (S k) * ((b - a) / INR (S k)) = b - a) as Hfull by (field; lra).
    split; [nra|]. nra.
Qed.

Lemma select_all (m : list bool) (l : list R) :
  length m = length l -> Forall (fun c => c = true) m -> select m l = Some l.
Proof.
  intros Hlen Hm. revert l Hlen.
  induction Hm as [|c m -> _ IH]; intros [|a l] Hlen; try done.
  rewrite select_cons_true, IH; [done|]. simpl in Hlen. lia.
Qed.

Lemma abs_zip (A P : list R) :
  zip_with (fun a p => Rabs (a - p)) A P = Rabs <$> zip_with Rminus P A.
Proof.
  revert P. induction A as [|a A IH]; intros [|p P]; try done.
  simpl. by rewrite IH, (Rabs_minus_sym a p).
Qed.

Lemma sq_abs (l : list R) :
  (fun e => e ^ 2) <$> (Rabs <$> l) = (fun d => d ^ 2) <$> l.
Proof.
  rewrite <- list_fmap_compose. apply list_fmap_ext. intros _ d _.
  apply pow2_abs.
Qed.

(** In exact arithmetic: the mask of the region Full Domain selects every
    grid coordinate, so whenever the metrics of that region are computed
    from the errors of the loop, they are the values that the formulas of
    the global metrics give on the predictions and the reference values of
    the same loop. *)
Theorem full_domain_metrics_are_global (erfc : R -> R) (params : list Layer)
    (x0 y0 v : R) (row : list R) :
  neural_net params [x0] [y0] = Some [v :: row] ->
  exists C_pred C_act C_error,
    evaluation erfc params x_vis t_vis = Some (C_pred, C_act, C_error) /\
    forall mse_r rmse_r max_r,
      region_metric full_domain x_vis t_vis C_error = Some (mse_r, rmse_r, max_r) ->
      mse C_pred C_act = Some mse_r /\
      rmse C_pred C_act = Some rmse_r /\
      max_error C_pred C_act = Some max_r.
Proof.
  intros Hacc.
  assert (Forall (fun t => 0 <= t) t_vis) as Hts.
  { apply linspace_nonneg. unfold tmin, tmax. lra. }
  destruct (evaluation_rows erfc params x0 y0 v row x_vis t_vis Hacc Hts)
    as (rows & Hrows & Hlen).
  destruct (evaluation_rows_split erfc params _ rows Hrows)
    as (U & _ & _ & _ & He).
  set (d := zip_with Rminus rows.*1.*1 rows.*1.*2).
  assert (Forall (fun c => c = true) (region_mask full_domain x_vis t_vis)) as Hall.
  { unfold full_domain. rewrite region_mask_grid.
    apply Forall_fmap, Forall_forall. intros p Hp.
    apply elem_of_grid_points in Hp as [Hx Ht].
    pose proof (linspace_range xmin xmax 100) as Rx.
    pose proof (linspace_range tmin tmax 100) as Rt.
    rewrite Forall_forall in Rx, Rt.
    specialize (Rx ltac:(unfold xmin, xmax; lra) _ Hx).
    specialize (Rt ltac:(unfold tmin, tmax; lra) _ Ht).
    unfold xmin, xmax, tmin, tmax in *. simpl.
    by rewrite !Rgeb_true, !Rleb_true by lra. }
  assert (length (region_mask full_domain x_vis t_vis) = length rows.*2) as Hmask.
  { unfold full_domain. rewrite region_mask_grid, !length_fmap.
    by apply length_mapM in Hrows. }
  exists rows.*1.*1, rows.*1.*2, rows.*2.
  split; [by rewrite evaluation_points, Hrows|].
  intros mse_r rmse_r max_r. unfold region_metric.
  rewrite (select_all _ _ Hmask Hall).
  cbv beta iota zeta delta [mbind option_bind].
  rewrite He, abs_zip. fold d. rewrite sq_abs.
  unfold rmse, mse, max_error. fold d.
  destruct (mean ((fun d0 => d0 ^ 2) <$> d)) as [e|]; [|done].
  destruct (np_max (Rabs <$> d)) as [m|]; [|done].
  by intros [= <- <- <-].
Qed.

Lemma full_domain_metrics_are_global_witness :
  neural_net demo_params [0] [7]
  = Some [[tanh (0 * 1 + (7 * 0 + 0) + 0) * 2 +
             (tanh (0 * 0 + (7 * 1 + 0) + 0) * 3 + 0) + 5]] /\
  exists C_pred C_act C_error,
    evaluation odd_erfc demo_params x_vis t_vis = Some (C_pred, C_act, C_error) /\
    forall mse_r rmse_r max_r,
      region_metric full_domain x_vis t_vis C_error = Some (mse_r, rmse_r, max_r) ->
      mse C_pred C_act = Some mse_r /\
      rmse C_pred C_act = Some rmse_r /\
      max_error C_pred C_act = Some max_r.
Proof.
  split; [reflexivity|].
  apply (full_domain_metrics_are_global odd_erfc demo_params 0 7
           (tanh (0 * 1 + (7 * 0 + 0) + 0) * 2 +
              (tanh (0 * 0 + (7 * 1 + 0) + 0) * 3 + 0) + 5) []).
  reflexivity.
Defined.

(** ** The error along the left boundary *)

Lemma chunks_concat (blocks : mat) (m : nat) :
  Forall (fun B => length B = m) blocks ->
  chunks (length blocks) m (concat blocks) = blocks.
Proof.
  induction 1 as [|B blocks HB _ IH]; [done|].
  simpl. rewrite take_app_length', drop_app_length' by done.
  by rewrite IH.
Qed.

Lemma reshape_concat (blocks : mat) (m : nat) :
  Forall (fun B => length B = m) blocks ->
  reshape (length blocks) m (concat blocks) = Some blocks.
Proof.
  intros HB. unfold reshape. rewrite decide_True.
  - by rewrite chunks_concat.
  - clear -HB. induction HB as [|B blocks HB _ IH]; [done|].
    simpl. rewrite length_app, IH, HB. done.
Qed.

Lemma linspace_tail_pos (a b : R) (n : nat) :
  a < b ->
  exists rest, linspace a b (S n) = a :: rest /\ length rest = n /\
               Forall (fun t => a < t) rest.
Proof.
  intros Hab. unfold linspace. rewrite <- cons_seq, fmap_cons.
  exists ((fun i => a + INR i * ((b - a) / INR (S n - 1))) <$> seq 1 n).
  split; [f_equal; simpl; ring|].
  split; [by rewrite length_fmap, length_seq|].
  apply Forall_fmap, Forall_forall. intros i Hi. apply elem_of_seq in Hi.
  change (a < a + INR i * ((b - a) / INR (S n - 1))).
  assert (0 < INR i) by (apply lt_0_INR; lia).
  assert (0 < INR (S n - 1)) by (apply lt_0_INR; lia).
  assert (0 < (b - a) / INR (S n - 1)).
  { apply Rmult_lt_0_compat; [lra|]. by apply Rinv_0_lt_compat. }
  assert (0 < INR i * ((b - a) / INR (S n - 1))) by (by apply Rmult_lt_0_compat).
  lra.
Qed.

(** Row by row of the grid: with 0 as the first position, each row of
    errors starts with 1 at time 0 and with 0 at a positive time. *)
Lemma boundary_blocks (erfc : R -> R) (params : list Layer)
    (x0 y0 v : R) (row : list R) (xr ts : list R) :
  neural_net params [x0] [y0] = Some [v :: row] ->
  (forall z, erfc (- z) = 2 - erfc z) ->
  Forall (fun t => 0 <= t) ts ->
  exists blocks : list (list (R * R * R)),
    mapM (evaluation_point erfc params) (grid_points (0 :: xr) ts)
    = Some (concat blocks) /\
    length blocks = length ts /\
    Forall (fun B => length B = S (length xr)) blocks /\
    (fun B : list (R * R * R) => nth 0 B.*2 0) <$> blocks
    = (fun t => if Req_dec_T t 0 then 1 else 0) <$> ts.
Proof.
  intros Hacc Hrefl Hts. induction Hts as [|t ts Ht Hts IH].
  - by exists [].
  - destruct IH as (blocks & Hrows & Hlen & Hshape & Hheads).
    destruct (evaluation_rows erfc params x0 y0 v row (0 :: xr) [t] Hacc)
      as (B & HB & HlenB); [by constructor|].
    assert (grid_points (0 :: xr) (t :: ts)
            = grid_points (0 :: xr) [t] ++ grid_points (0 :: xr) ts) as Hgrid.
    { unfold grid_points. rewrite !fmap_cons, !concat_cons. simpl.
      by rewrite app_nil_r. }
    exists (B :: blocks). rewrite Hgrid, mapM_app, HB, Hrows.
    split; [done|]. split; [simpl; by rewrite Hlen|].
    split; [constructor; [simpl in HlenB; lia|done]|].
    rewrite !fmap_cons, Hheads. f_equal.
    destruct (grid_points_head 0 t xr []) as [rest Hhead].
    rewrite Hhead, mapM_cons in HB.
    destruct (evaluation_point_Some erfc params x0 y0 v row (0, t) Hacc Ht)
      as (b & act & Hpt & Hact).
    rewrite Hpt in HB. simpl in HB, Hact.
    destruct (mapM (evaluation_point erfc params) rest) as [B'|]; [|done].
    injection HB as <-. simpl.
    destruct (Req_dec_T t 0) as [->|Hne].
    + rewrite analytical_sol_initial in Hact. injection Hact as <-.
      replace (0 - (b * 0 + (1 - 0))) with (- (1)) by ring.
      rewrite Rabs_Ropp. apply Rabs_R1.
    + rewrite (analytical_sol_boundary_value erfc t Hrefl) in Hact by lra.
      injection Hact as <-.
      replace (1 - (b * 0 + (1 - 0))) with 0 by ring. apply Rabs_R0.
Qed.

Lemma concat_snd_blocks (blocks : list (list (R * R * R))) :
  (concat blocks).*2 = concat ((fun B : list (R * R * R) => B.*2) <$> blocks).
Proof.
  induction blocks as [|B blocks IH]; [done|].
  rewrite fmap_cons, !concat_cons, fmap_app, IH. done.
Qed.

(** With a complementary error function that has the reflection
    [erfc (-z) = 2 - erfc z], the error plotted along the left boundary,
    [C_error_grid[:, 0]], is 1 at the first time of the grid and exactly 0
    at each of the other 99 times, whatever the ParameterSet. *)
Theorem left_boundary_error_profile (erfc : R -> R) (params : list Layer)
    (x0 y0 v : R) (row : list R) :
  neural_net params [x0] [y0] = Some [v :: row] ->
  (forall z, erfc (- z) = 2 - erfc z) ->
  exists C_pred C_act C_error C_error_grid,
    evaluation erfc params x_vis t_vis = Some (C_pred, C_act, C_error) /\
    reshape (length t_vis) (length x_vis) C_error = Some C_error_grid /\
    column C_error_grid 0 = 1 :: replicate 99 0.
Proof.
  intros Hacc Hrefl.
  destruct (linspace_tail_pos xmin xmax 99) as (xr & Hx & Hxr & _);
    [unfold xmin, xmax; lra|].
  destruct (linspace_tail_pos tmin tmax 99) as (tr & Ht & Htr & Hpos);
    [unfold tmin, tmax; lra|].
  assert (Forall (fun t => 0 <= t) t_vis) as Hts.
  { apply linspace_nonneg. unfold tmin, tmax. lra. }
  assert (x_vis = 0 :: xr) as Hxv by exact Hx.
  destruct (boundary_blocks erfc params x0 y0 v row xr t_vis Hacc Hrefl Hts)
    as (blocks & Hrows & Hlen & Hshape & Hheads).
  rewrite <- Hxv in Hrows.
  exists (concat blocks).*1.*1, (concat blocks).*1.*2, (concat blocks).*2,
    ((fun B : list (R * R * R) => B.*2) <$> blocks).
  split; [by rewrite evaluation_points, Hrows|]. split.
  - rewrite concat_snd_blocks, <- Hlen, <- (length_fmap (fun B => B.*2) blocks).
    apply reshape_concat. apply Forall_fmap.
    eapply Forall_impl; [exact Hshape|]. intros B HB.
    change (length B.*2 = length x_vis).
    rewrite length_fmap, HB, Hxv. done.
  - unfold column. rewrite <- list_fmap_compose.
    etrans; [exact Hheads|].
    assert (t_vis = 0 :: tr) as -> by exact Ht.
    rewrite fmap_cons. destruct (Req_dec_T 0 0) as [_|Hne]; [|done].
    f_equal. rewrite <- Htr. clear -Hpos.
    induction Hpos as [|t tr Hgt _ IH]; [done|].
    rewrite fmap_cons. simpl. rewrite IH.
    destruct (Req_dec_T t 0) as [->|_]; [unfold tmin in Hgt; lra|done].
Qed.

Lemma left_boundary_error_profile_witness :
  neural_net demo_params [0] [7]
  = Some [[tanh (0 * 1 + (7 * 0 + 0) + 0) * 2 +
             (tanh (0 * 0 + (7 * 1 + 0) + 0) * 3 + 0) + 5]] /\
  (forall z, odd_erfc (- z) = 2 - odd_erfc z) /\
  exists C_pred C_act C_error C_error_grid,
    evaluation odd_erfc demo_params x_vis t_vis = Some (C_pred, C_act, C_error) /\
    reshape (length t_vis) (length x_vis) C_error = Some C_error_grid /\
    column C_error_grid 0 = 1 :: replicate 99 0.
Proof.
  assert (forall z, odd_erfc (- z) = 2 - odd_erfc z) as H.
  { intros z. unfold odd_erfc. lra. }
  split; [reflexivity|]. split; [exact H|].
  apply (left_boundary_error_profile odd_erfc demo_params 0 7
           (tanh (0 * 1 + (7 * 0 + 0) + 0) * 2 +
              (tanh (0 * 0 + (7 * 1 + 0) + 0) * 3 + 0) + 5) []);
    [reflexivity|exact H].
Defined.
